(** * Serialising SQE transcriptions: the notebook's two serialisers

    A shallow embedding of the code cells of
    [Retrieving-text-with-the-SQE-API.ipynb] that turn a text object
    (the JSON document returned by
    [GET editions/{editionId}/text-fragments/{textFragmentId}]) into

    - a string ([readFragments], [readLines], [readSigns]), and
    - a nested dictionary ([simplifiedTextObject]).

    Python strings are modelled by [string] (the UTF-8 bytes of the text;
    concatenation of Python strings is concatenation of their encodings),
    JSON objects with a fixed schema by records, JSON arrays by lists, the
    dictionaries built by the second serialiser by [gmap string _], and an
    exception ([KeyError] on a subscript) by [None] in the [option]
    monad. *)

From stdpp Require Import gmap strings list fin_maps relations.
From Stdlib Require Import ZArith.

Local Open Scope Z_scope.


(** ** The text object *)

Module Schema.

(** An element of ["attributes"]: the code reads ["attributeValueId"]
    only. *)
Record Attribute := {
  attributeId : Z;
  attributeValueId : Z
}.

(** An element of ["signInterpretations"].  ["character"] is the only
    optional key the code subscripts: [None] stands for its absence. *)
Record SignInterpretation := {
  signInterpretationId : Z;
  character : option string;
  attributes : list Attribute;
  nextSignInterpretations : list Z
}.

Record Sign := {
  signInterpretations : list SignInterpretation
}.

Record Line := {
  lineId : Z;
  lineName : string;
  signs : list Sign
}.

Record TextFragment := {
  textFragmentId : Z;
  textFragmentName : string;
  lines : list Line
}.

(** The top-level text object.  Its licence and editor keys are never
    read by the serialisers. *)
Record Text := {
  editionId : Z;
  editionName : string;
  textFragments : list TextFragment
}.

End Schema.
Export Schema.

(** ** Python control flow *)

(** A [for] loop whose body may raise: the accumulator is threaded through
    the elements in order and the first exception ends the loop. *)
Fixpoint forM {A S : Type} (body : S -> A -> option S) (l : list A) (s : S)
  : option S :=
  match l with
  | [] => Some s
  | x :: l' =>
      match body s x with
      | Some s' => forM body l' s'
      | None => None
      end
  end.

(** The newline character written [\n] in the source. *)
Definition nl : string := String (Ascii.ascii_of_nat 10) EmptyString.

(** ** Serialising to a string *)

(** [list(map(lambda x: x['attributeValueId'], signInterpretation['attributes']))] *)
Definition attributeIds (si : SignInterpretation) : list Z :=
  map attributeValueId (attributes si).

(** The body of the inner loop of [readSigns]. *)
Definition readSignInterpretation (formattedString : string)
    (signInterpretation : SignInterpretation) : option string :=
  let attributes := attributeIds signInterpretation in
  if decide (20 ∉ attributes) then
    if decide (1 ∈ attributes) then
      c ← character signInterpretation;
      Some (formattedString +:+ c)
    else if decide (2 ∈ attributes) then
      Some (formattedString +:+ " ")
    else Some formattedString
  else Some formattedString.

Definition readSigns (line : Line) (formattedString : string) : option string :=
  forM (fun formattedString sign =>
          forM readSignInterpretation (signInterpretations sign) formattedString)
       (signs line) formattedString.

Definition readLines (textFragment : TextFragment) (formattedString : string)
  : option string :=
  forM (fun formattedString line =>
          let formattedString :=
            formattedString +:+ ("line " +:+ lineName line +:+ ":" +:+ nl) in
          s ← readSigns line formattedString;
          Some (s +:+ nl))
       (lines textFragment) formattedString.

Definition readFragments (text : Text) : option string :=
  let formattedString := "" in
  forM (fun formattedString textFragment =>
          let formattedString :=
            formattedString +:+
            (nl +:+ "Text fragment " +:+ textFragmentName textFragment +:+ ":" +:+ nl) in
          readLines textFragment formattedString)
       (textFragments text) formattedString.

(** ** Serialising to a simpler object *)

(** [d[key].append(x)]: the subscript raises [KeyError] on a missing key;
    otherwise the list stored under [key] grows by [x] at its end. *)
Definition appendAt {V : Type} (key : string) (x : V)
    (d : gmap string (list V)) : option (gmap string (list V)) :=
  l ← d !! key;
  Some (<[key := l ++ [x]]> d).

(** The body of the innermost loop of the second serialiser; [name] is
    [line['lineName']]. *)
Definition simplifySignInterpretation (name : string)
    (lineObject : gmap string (list string))
    (signInterpretation : SignInterpretation)
  : option (gmap string (list string)) :=
  let attributes := attributeIds signInterpretation in
  if decide (20 ∉ attributes) then
    if decide (1 ∈ attributes) then
      c ← character signInterpretation;
      appendAt name c lineObject
    else if decide (2 ∈ attributes) then
      appendAt name " " lineObject
    else Some lineObject
  else Some lineObject.

(** The object built for one line: [lineObject = {}], then
    [lineObject[line['lineName']] = []], then the loops over the signs and
    their interpretations. *)
Definition lineObject (line : Line) : option (gmap string (list string)) :=
  let lineObject : gmap string (list string) := ∅ in
  let lineObject := <[lineName line := []]> lineObject in
  forM (fun lineObject sign =>
          forM (simplifySignInterpretation (lineName line))
               (signInterpretations sign) lineObject)
       (signs line) lineObject.

(** The body of the loop over [text['textFragments']]. *)
Definition simplifyTextFragment
    (simplifiedTextObject : gmap string (list (gmap string (list string))))
    (textFragment : TextFragment)
  : option (gmap string (list (gmap string (list string)))) :=
  let simplifiedTextObject :=
    <[textFragmentName textFragment := []]> simplifiedTextObject in
  forM (fun simplifiedTextObject line =>
          lo ← lineObject line;
          appendAt (textFragmentName textFragment) lo simplifiedTextObject)
       (lines textFragment) simplifiedTextObject.

(** The value of the variable [simplifiedTextObject] once the cell has run
    on [text]. *)
Definition simplifiedTextObject (text : Text)
  : option (gmap string (list (gmap string (list string)))) :=
  forM simplifyTextFragment (textFragments text) ∅.

(** ** Vocabulary used to state the properties *)

(** [''.join(l)] *)
Definition join (l : list string) : string := foldr String.append "" l.

(** Every interpretation of a line, sign after sign and, inside a sign, in
    the order listed. *)
Definition lineInterpretations (line : Line) : list SignInterpretation :=
  flat_map signInterpretations (signs line).

(** What one interpretation contributes: nothing when it carries
    attribute value 20; its character when it carries 1; one space when it
    carries 2 and not 1; nothing otherwise.  [None] when the character is
    needed and missing. *)
Definition emitted (si : SignInterpretation) : option (list string) :=
  if decide (20 ∈ attributeIds si) then Some []
  else if decide (1 ∈ attributeIds si) then c ← character si; Some [c]
  else if decide (2 ∈ attributeIds si) then Some [" "]
  else Some [].

Definition emittedBy (sis : list SignInterpretation) : option (list string) :=
  css ← mapM emitted sis; Some (concat css).

(** The filtered characters and spaces of a line. *)
Definition lineChars (line : Line) : option (list string) :=
  emittedBy (lineInterpretations line).

(** The plain-text serialisation, stated without accumulators: every line
    is its name between ["line "] and [":"], a newline, its filtered
    characters and spaces, and a closing newline; every text fragment is a
    newline, ["Text fragment "], its name, [":"], a newline, and its lines. *)
Definition toPlainTextLine (line : Line) : option string :=
  cs ← lineChars line;
  Some (("line " +:+ lineName line +:+ ":" +:+ nl) +:+ join cs +:+ nl).

Definition toPlainTextFragment (textFragment : TextFragment) : option string :=
  ls ← mapM toPlainTextLine (lines textFragment);
  Some ((nl +:+ "Text fragment " +:+ textFragmentName textFragment +:+ ":" +:+ nl)
        +:+ join ls).

Definition toPlainText (text : Text) : option string :=
  fs ← mapM toPlainTextFragment (textFragments text);
  Some (join fs).

(** The structured serialisation of one text fragment: one single-key
    object per line, in line order. *)
Definition toStructuredLine (line : Line) : option (gmap string (list string)) :=
  cs ← lineChars line; Some {[ lineName line := cs ]}.

Definition toStructuredFragment (textFragment : TextFragment)
  : option (list (gmap string (list string))) :=
  mapM toStructuredLine (lines textFragment).

(** The one subscript that can raise: ['character'] is read from an
    interpretation that carries attribute value 1 and not 20. *)
Definition readable (si : SignInterpretation) : Prop :=
  20 ∉ attributeIds si → 1 ∈ attributeIds si → is_Some (character si).

(** No interpretation of the text lacks a character where one is read. *)
Definition serialisable (text : Text) : Prop :=
  Forall (fun textFragment =>
            Forall (fun line => Forall readable (lineInterpretations line))
                   (lines textFragment))
         (textFragments text).

(** The last text fragment of a list that bears a given name. *)
Fixpoint lastNamed (name : string) (tfs : list TextFragment)
  : option TextFragment :=
  match tfs with
  | [] => None
  | tf :: tfs' =>
      match lastNamed name tfs' with
      | Some tf' => Some tf'
      | None => if decide (textFragmentName tf = name) then Some tf else None
      end
  end.

(** The default order as the specification words it: for each sign, in
    the line's order, the first interpretation listed. *)
Definition defaultOrder (line : Line) : list SignInterpretation :=
  flat_map (fun sign => take 1 (signInterpretations sign)) (signs line).

(** The attribute values tabulated in the notebook (16 is not among them). *)
Definition catalog : list Z := seqZ 1 15 ++ seqZ 17 24.

(** *** Rewriting a text object, interpretation list by interpretation list *)

Section Rewriting.
Variable f : list SignInterpretation -> list SignInterpretation.

Definition onSign (sign : Sign) : Sign :=
  {| signInterpretations := f (signInterpretations sign) |}.

Definition onLine (line : Line) : Line :=
  {| lineId := lineId line; lineName := lineName line;
     signs := map onSign (signs line) |}.

Definition onTextFragment (textFragment : TextFragment) : TextFragment :=
  {| textFragmentId := textFragmentId textFragment;
     textFragmentName := textFragmentName textFragment;
     lines := map onLine (lines textFragment) |}.

Definition onText (text : Text) : Text :=
  {| editionId := editionId text; editionName := editionName text;
     textFragments := map onTextFragment (textFragments text) |}.
End Rewriting.

(** The text without its reconstructed interpretations. *)
Definition dropReconstructed : Text -> Text :=
  onText (filter (fun si => 20 ∉ attributeIds si)).

(** The text without the attributes whose value satisfies [P]. *)
Definition withoutAttributes (P : Z -> Prop) `{!∀ v, Decision (P v)}
    (si : SignInterpretation) : SignInterpretation :=
  {| signInterpretationId := signInterpretationId si;
     character := character si;
     attributes := filter (fun a => ¬ P (attributeValueId a)) (attributes si);
     nextSignInterpretations := nextSignInterpretations si |}.

Definition dropAttributes (P : Z -> Prop) `{!∀ v, Decision (P v)} : Text -> Text :=
  onText (map (withoutAttributes P)).

(** The text with other next-interpretation references. *)
Definition withNext (g : SignInterpretation -> list Z)
    (si : SignInterpretation) : SignInterpretation :=
  {| signInterpretationId := signInterpretationId si;
     character := character si;
     attributes := attributes si;
     nextSignInterpretations := g si |}.

Definition rewire (g : SignInterpretation -> list Z) : Text -> Text :=
  onText (map (withNext g)).

(** *** The invariants of a line (section 3 of the specification) *)

(** [a] names [b] as a possible next interpretation. *)
Definition refersTo (line : Line) (a b : Z) : Prop :=
  ∃ si, si ∈ lineInterpretations line ∧ signInterpretationId si = a
        ∧ b ∈ nextSignInterpretations si.

Definition cyclic (line : Line) : Prop := ∃ a, tc (refersTo line) a a.

Record validLine (line : Line) : Prop := {
  valid_interpreted :
    Forall (fun sign => signInterpretations sign ≠ []) (signs line);
  valid_resolved :
    Forall (fun si =>
              Forall (fun b => b ∈ map signInterpretationId (lineInterpretations line))
                     (nextSignInterpretations si))
           (lineInterpretations line);
  valid_acyclic : ¬ cyclic line;
  valid_typed :
    Forall (fun si => Exists (fun v => 1 ≤ v ≤ 9) (attributeIds si))
           (lineInterpretations line);
  valid_letters :
    Forall (fun si => 1 ∈ attributeIds si →
                      ∃ c, character si = Some c ∧ c ≠ "")
           (lineInterpretations line)
}.

(** *** Sample data *)

Module Sample.

Definition attribute (v : Z) : Attribute :=
  {| attributeId := 0; attributeValueId := v |}.

Definition interpretation (id : Z) (c : string) (vs next : list Z)
  : SignInterpretation :=
  {| signInterpretationId := id; character := Some c;
     attributes := map attribute vs; nextSignInterpretations := next |}.

Definition sign (si : SignInterpretation) : Sign :=
  {| signInterpretations := [si] |}.

Definition text (fragments : list TextFragment) : Text :=
  {| editionId := 1; editionName := "4Q51"; textFragments := fragments |}.

(** A kaf, a space, and a reconstructed lamed. *)
Definition kaf := interpretation 1 "כ" [1] [2].
Definition space := interpretation 2 "" [2] [3].
Definition lamed := interpretation 3 "ל" [1; 20] [].

Definition kafLine : Line :=
  {| lineId := 1; lineName := "1"; signs := [sign kaf; sign space; sign lamed] |}.

(** The same three interpretations as the variants of one sign. *)
Definition kafLine' : Line :=
  {| lineId := 1; lineName := "1";
     signs := [ {| signInterpretations := [kaf; space; lamed] |} ] |}.

Definition kafFragment : TextFragment :=
  {| textFragmentId := 1; textFragmentName := "frg. 1"; lines := [kafLine] |}.

Definition kafText : Text := text [kafFragment].

(** A sign read either as waw or as yod, then a space. *)
Definition waw := interpretation 1 "ו" [1] [3].
Definition yod := interpretation 2 "י" [1] [3].
Definition after := interpretation 3 "" [2] [].

Definition ambiguousLine : Line :=
  {| lineId := 2; lineName := "2";
     signs := [ {| signInterpretations := [waw; yod] |}; sign after ] |}.

(** Two lines called after columns. *)
Definition columnI : Line :=
  {| lineId := 3; lineName := "Col. I"; signs := [sign kaf; sign space] |}.
Definition columnII : Line :=
  {| lineId := 4; lineName := "Col. II"; signs := [sign lamed; sign waw] |}.

Definition columns : TextFragment :=
  {| textFragmentId := 2; textFragmentName := "frg. 2";
     lines := [columnI; columnII] |}.

(** An interpretation that names itself as its successor. *)
Definition loop := interpretation 7 "א" [1] [7; 8].
Definition loopEnd := interpretation 8 "" [2] [].

Definition loopLine : Line :=
  {| lineId := 5; lineName := "3"; signs := [sign loop; sign loopEnd] |}.

Definition loopText : Text :=
  text [ {| textFragmentId := 3; textFragmentName := "frg. 3";
            lines := [loopLine] |} ].

(** An interpretation with an attribute value the table does not list. *)
Definition odd := interpretation 4 "ב" [1; 99] [].

Definition oddText : Text :=
  text [ {| textFragmentId := 4; textFragmentName := "frg. 4";
            lines := [ {| lineId := 6; lineName := "1";
                          signs := [sign odd; sign space] |} ] |} ].


End Sample.

(** ** Finding an edition by its manuscript name *)

(** A version of an edition as listed by [GET /editions]: the code reads
    its ['id'] and ['name']. *)
Record Version := {
  versionId : Z;
  versionName : string
}.

(** [editions] is the list the first request returns: one list of versions
    per edition. *)
Definition editionIdByManuscriptName (editions : list (list Version))
    (name : string) : list Z :=
  let eid := [] in
  fold_left (fun eid edition =>
               fold_left (fun eid version =>
                            if decide (name = versionName version)
                            then eid ++ [versionId version]
                            else eid)
                         edition eid)
            editions eid.

(** The value of the variable [selectedEdition] after the cell has run: the
    first id found, or the (empty) list itself when there is none. *)
Definition selectedEdition (editions : list (list Version))
    (manuscriptName : string) : Z + list Z :=
  let selectedEdition := editionIdByManuscriptName editions manuscriptName in
  if decide (0 < length selectedEdition)%nat
  then match selectedEdition with
       | first :: _ => inl first
       | [] => inr selectedEdition
       end
  else inr selectedEdition.

(** The versions of all editions, in the order listed. *)
Definition allVersions (editions : list (list Version)) : list Version :=
  concat editions.

(** *** More rewriting *)

(** The text with other characters on the interpretations that are
    reconstructed or are not letters. *)
Definition withCharacter (g : SignInterpretation -> option string)
    (si : SignInterpretation) : SignInterpretation :=
  {| signInterpretationId := signInterpretationId si;
     character := if decide ((20 ∉ attributeIds si) ∧ 1 ∈ attributeIds si)
                  then character si else g si;
     attributes := attributes si;
     nextSignInterpretations := nextSignInterpretations si |}.

Definition recharacter (g : SignInterpretation -> option string) : Text -> Text :=
  onText (map (withCharacter g)).

(** An interpretation that writes something: it is not reconstructed and
    is a letter or a space. *)
Definition writes (si : SignInterpretation) : Prop :=
  (20 ∉ attributeIds si) ∧ (1 ∈ attributeIds si ∨ 2 ∈ attributeIds si).

#[global] Instance writes_dec si : Decision (writes si) :=
  ltac:(unfold writes; apply _).

(** An interpretation has an attribute whose ['attributeValueId'] is [v]:
    read off the attribute records themselves. *)
Definition carries (v : Z) (si : SignInterpretation) : Prop :=
  Exists (fun a => attributeValueId a = v) (attributes si).

#[global] Instance carries_dec v si : Decision (carries v si) :=
  ltac:(unfold carries; apply _).

(** *** More sample data *)

Module EditionSample.

Definition version (id : Z) (name : string) : Version :=
  {| versionId := id; versionName := name |}.

(** Two editions: the first has a fork, the second none. *)
Definition editions : list (list Version) :=
  [ [version 894 "4Q51"; version 1650 "4Q51"]; [version 895 "4Q52"] ].

(** A line without signs and a line all of whose signs are reconstructed. *)
Definition emptyLine : Line :=
  {| lineId := 7; lineName := "4"; signs := [] |}.

Definition lostLine : Line :=
  {| lineId := 8; lineName := "5"; signs := [Sample.sign Sample.lamed] |}.

(** Two text fragments of the same name. *)
Definition earlier : TextFragment :=
  {| textFragmentId := 5; textFragmentName := "frg. 1";
     lines := [Sample.columnI] |}.

Definition twice : Text :=
  Sample.text [earlier; Sample.columns; Sample.kafFragment].

Definition once : Text :=
  Sample.text [Sample.columns; Sample.kafFragment].

(** A text fragment with the line "Col. I", followed by another text
    fragment of the same name that has no such line. *)
Definition shadowed : Text := Sample.text [earlier; Sample.kafFragment].

(** An unreconstructed letter whose character is missing, after a line
    that is complete. *)
Definition hole : SignInterpretation :=
  {| signInterpretationId := 10; character := None;
     attributes := [Sample.attribute 1];
     nextSignInterpretations := [] |}.

Definition holeLine : Line :=
  {| lineId := 10; lineName := "2"; signs := [Sample.sign Sample.kaf; Sample.sign hole] |}.

Definition holeFragment : TextFragment :=
  {| textFragmentId := 7; textFragmentName := "frg. 7";
     lines := [Sample.kafLine; holeLine] |}.

Definition holeText : Text := Sample.text [Sample.kafFragment; holeFragment].

End EditionSample.

(** ** Strings *)

Lemma append_cons a s t : String a s +:+ t = String a (s +:+ t).
Proof. reflexivity. Qed.

Lemma append_nil_r s : s +:+ "" = s.
Proof. induction s as [|a s IH]; [done|]. by rewrite append_cons, IH. Qed.

Lemma append_assoc s t u : s +:+ (t +:+ u) = (s +:+ t) +:+ u.
Proof. induction s as [|a s IH]; [done|]. by rewrite !append_cons, IH. Qed.

Lemma join_app l k : join (l ++ k) = join l +:+ join k.
Proof.
  induction l as [|x l IH]; [done|].
  change (x +:+ join (l ++ k) = (x +:+ join l) +:+ join k).
  by rewrite IH, append_assoc.
Qed.

(** ** Loops *)

Section Loops.
Context {A S : Type}.
Implicit Types (body : S -> A -> option S) (l : list A) (s : S).

Lemma forM_app body l1 l2 s :
  forM body (l1 ++ l2) s = forM body l1 s ≫= forM body l2.
Proof.
  revert s. induction l1 as [|x l1 IH]; intros s; [done|].
  cbn [forM app]. destruct (body s x); [apply IH | done].
Qed.

Lemma forM_ext body body' l s :
  (∀ s x, x ∈ l → body s x = body' s x) →
  forM body l s = forM body' l s.
Proof.
  revert s. induction l as [|x l IH]; intros s Hb; [done|].
  cbn [forM]. rewrite <-Hb by left.
  destruct (body s x); [|done]. apply IH. intros. apply Hb. by right.
Qed.

Lemma forM_map {B} (h : B -> A) body (k : list B) s :
  forM body (map h k) s = forM (fun s y => body s (h y)) k s.
Proof.
  revert s. induction k as [|y k IH]; intros s; [done|].
  cbn [forM map]. destruct (body s (h y)); [apply IH | done].
Qed.

(** Elements on which the body does nothing may be skipped. *)
Lemma forM_filter (P : A -> Prop) `{!∀ x, Decision (P x)} body l s :
  (∀ s x, ¬ P x → body s x = Some s) →
  forM body (filter P l) s = forM body l s.
Proof.
  intros Hskip. revert s. induction l as [|x l IH]; intros s; [done|].
  rewrite filter_cons. cbn [forM]. destruct (decide (P x)) as [|Hn].
  - cbn [forM]. destruct (body s x); [apply IH | done].
  - rewrite (Hskip _ _ Hn). apply IH.
Qed.
End Loops.

(** Two nested loops are one loop over the flattened list. *)
Lemma forM_flat_map {A B S} (body : S -> B -> option S) (g : A -> list B)
    (l : list A) (s : S) :
  forM (fun s x => forM body (g x) s) l s = forM body (flat_map g l) s.
Proof.
  revert s. induction l as [|x l IH]; intros s; [done|].
  cbn [forM flat_map]. rewrite forM_app.
  destruct (forM body (g x) s); [apply IH | done].
Qed.

(** ** One interpretation *)

Lemma readSignInterpretation_emitted acc si :
  readSignInterpretation acc si = cs ← emitted si; Some (acc +:+ join cs).
Proof.
  unfold readSignInterpretation, emitted.
  destruct (decide (20 ∈ attributeIds si)) as [H20|H20].
  - rewrite decide_False by tauto. cbn. by rewrite append_nil_r.
  - rewrite decide_True by done.
    destruct (decide (1 ∈ attributeIds si)).
    + destruct (character si) as [c|]; [|done]. cbn. by rewrite append_nil_r.
    + destruct (decide (2 ∈ attributeIds si)); cbn; by rewrite ?append_nil_r.
Qed.

Lemma simplifySignInterpretation_emitted name (lo : gmap string (list string)) l si :
  lo !! name = Some l →
  simplifySignInterpretation name lo si
  = cs ← emitted si; Some (<[name := l ++ cs]> lo).
Proof.
  intros Hl. unfold simplifySignInterpretation, emitted, appendAt.
  destruct (decide (20 ∈ attributeIds si)) as [H20|H20].
  - rewrite decide_False by tauto. cbn. by rewrite app_nil_r, insert_id.
  - rewrite decide_True by done.
    destruct (decide (1 ∈ attributeIds si)).
    + destruct (character si) as [c|]; [|done]. cbn. by rewrite Hl.
    + destruct (decide (2 ∈ attributeIds si)); cbn.
      * by rewrite Hl.
      * by rewrite app_nil_r, insert_id.
Qed.

(** ** A list of interpretations *)

Lemma emittedBy_nil : emittedBy [] = Some [].
Proof. reflexivity. Qed.

Lemma emittedBy_cons si sis :
  emittedBy (si :: sis)
  = cs ← emitted si; css ← emittedBy sis; Some (cs ++ css).
Proof.
  unfold emittedBy. cbn.
  destruct (emitted si) as [cs|]; [|done]. cbn.
  by destruct (mapM emitted sis).
Qed.

Lemma emittedBy_app sis1 sis2 :
  emittedBy (sis1 ++ sis2)
  = cs1 ← emittedBy sis1; cs2 ← emittedBy sis2; Some (cs1 ++ cs2).
Proof.
  induction sis1 as [|si sis1 IH].
  - cbn [app]. rewrite emittedBy_nil. cbn. by destruct (emittedBy sis2).
  - cbn [app]. rewrite !emittedBy_cons, IH.
    destruct (emitted si) as [cs|]; [|done]. cbn.
    destruct (emittedBy sis1) as [cs1|]; [|done]. cbn.
    destruct (emittedBy sis2) as [cs2|]; [|done]. cbn.
    by rewrite app_assoc.
Qed.

Lemma forM_readSignInterpretation sis acc :
  forM readSignInterpretation sis acc
  = cs ← emittedBy sis; Some (acc +:+ join cs).
Proof.
  revert acc. induction sis as [|si sis IH]; intros acc.
  - cbn. by rewrite append_nil_r.
  - cbn [forM]. rewrite readSignInterpretation_emitted, emittedBy_cons.
    destruct (emitted si) as [cs|]; [|done]. cbn. rewrite IH.
    destruct (emittedBy sis) as [css|]; [|done]. cbn.
    by rewrite join_app, append_assoc.
Qed.

Lemma forM_simplifySignInterpretation name sis
    (lo : gmap string (list string)) l :
  lo !! name = Some l →
  forM (simplifySignInterpretation name) sis lo
  = cs ← emittedBy sis; Some (<[name := l ++ cs]> lo).
Proof.
  revert lo l. induction sis as [|si sis IH]; intros lo l Hl.
  - cbn. by rewrite app_nil_r, insert_id.
  - cbn [forM].
    rewrite (simplifySignInterpretation_emitted _ _ _ _ Hl), emittedBy_cons.
    destruct (emitted si) as [cs|]; [|done]. cbn.
    rewrite (IH _ (l ++ cs)) by apply lookup_insert_eq.
    destruct (emittedBy sis) as [css|]; [|done]. cbn.
    by rewrite insert_insert_eq, app_assoc.
Qed.

(** ** One line *)

Lemma readSigns_all line acc :
  readSigns line acc = forM readSignInterpretation (lineInterpretations line) acc.
Proof. unfold readSigns, lineInterpretations. apply forM_flat_map. Qed.

Lemma readSigns_lineChars line acc :
  readSigns line acc = cs ← lineChars line; Some (acc +:+ join cs).
Proof. rewrite readSigns_all. apply forM_readSignInterpretation. Qed.

Lemma lineObject_lineChars line : lineObject line = toStructuredLine line.
Proof.
  unfold lineObject, toStructuredLine, lineChars, lineInterpretations.
  rewrite (forM_flat_map (simplifySignInterpretation (lineName line))).
  rewrite (forM_simplifySignInterpretation _ _ _ []) by apply lookup_insert_eq.
  destruct (emittedBy _) as [cs|]; [|done]. cbn.
  by rewrite insert_insert_eq.
Qed.

(** ** Lines and text fragments *)

Lemma mapM_cons_eq {A B} (f : A -> option B) x l :
  mapM f (x :: l) = y ← f x; k ← mapM f l; Some (y :: k).
Proof. reflexivity. Qed.

Lemma toPlainTextLine_eq line :
  toPlainTextLine line
  = cs ← lineChars line;
    Some (("line " +:+ lineName line +:+ ":" +:+ nl) +:+ join cs +:+ nl).
Proof. reflexivity. Qed.

Lemma readLines_lines ls acc :
  forM (fun formattedString line =>
          s ← readSigns line
                (formattedString +:+ ("line " +:+ lineName line +:+ ":" +:+ nl));
          Some (s +:+ nl)) ls acc
  = bodies ← mapM toPlainTextLine ls; Some (acc +:+ join bodies).
Proof.
  revert acc. induction ls as [|line ls IH]; intros acc.
  - cbn. by rewrite append_nil_r.
  - cbn [forM]. rewrite mapM_cons_eq, readSigns_lineChars, toPlainTextLine_eq.
    destruct (lineChars line) as [cs|]; [|done]. cbn. rewrite IH.
    destruct (mapM toPlainTextLine ls) as [bodies|]; [|done]. cbn.
    f_equal. change (join (?x :: bodies)) with (x +:+ join bodies).
    by rewrite !append_assoc.
Qed.

Lemma readLines_toPlainText textFragment acc :
  readLines textFragment
    (acc +:+ (nl +:+ "Text fragment " +:+ textFragmentName textFragment +:+ ":" +:+ nl))
  = body ← toPlainTextFragment textFragment; Some (acc +:+ body).
Proof.
  unfold readLines, toPlainTextFragment. rewrite readLines_lines.
  destruct (mapM toPlainTextLine _) as [bodies|]; [|done]. cbn.
  by rewrite !append_assoc.
Qed.

Lemma readFragments_fragments tfs acc :
  forM (fun formattedString textFragment =>
          readLines textFragment
            (formattedString +:+
             (nl +:+ "Text fragment " +:+ textFragmentName textFragment +:+ ":" +:+ nl)))
       tfs acc
  = bodies ← mapM toPlainTextFragment tfs; Some (acc +:+ join bodies).
Proof.
  revert acc. induction tfs as [|tf tfs IH]; intros acc.
  - cbn. by rewrite append_nil_r.
  - cbn [forM]. rewrite mapM_cons_eq, readLines_toPlainText.
    destruct (toPlainTextFragment tf) as [body|]; [|done]. cbn. rewrite IH.
    destruct (mapM toPlainTextFragment tfs) as [bodies|]; [|done]. cbn.
    f_equal. change (join (?x :: bodies)) with (x +:+ join bodies).
    by rewrite append_assoc.
Qed.

Lemma simplifyTextFragment_lines name ls
    (obj : gmap string (list (gmap string (list string)))) done_ :
  obj !! name = Some done_ →
  forM (fun obj line => lo ← lineObject line; appendAt name lo obj) ls obj
  = los ← mapM toStructuredLine ls; Some (<[name := done_ ++ los]> obj).
Proof.
  revert obj done_. induction ls as [|line ls IH]; intros obj done_ Hd.
  - cbn. by rewrite app_nil_r, insert_id.
  - cbn [forM]. rewrite mapM_cons_eq, lineObject_lineChars.
    destruct (toStructuredLine line) as [lo|]; [|done]. cbn.
    unfold appendAt at 1. rewrite Hd. cbn.
    rewrite (IH _ (done_ ++ [lo])) by apply lookup_insert_eq.
    destruct (mapM toStructuredLine ls) as [los|]; [|done]. cbn.
    by rewrite insert_insert_eq, <-app_assoc.
Qed.

Lemma simplifyTextFragment_entry obj textFragment :
  simplifyTextFragment obj textFragment
  = los ← toStructuredFragment textFragment;
    Some (<[textFragmentName textFragment := los]> obj).
Proof.
  unfold simplifyTextFragment, toStructuredFragment.
  rewrite (simplifyTextFragment_lines _ _ _ []) by apply lookup_insert_eq.
  destruct (mapM toStructuredLine _) as [los|]; [|done]. cbn.
  by rewrite insert_insert_eq.
Qed.

(** ** The string being built *)

(** [readSigns] and [readLines] keep the string they are given and write
    after it what they write after the empty string. *)
Lemma readSigns_accumulator line acc :
  readSigns line acc = (s ← readSigns line ""; Some (acc +:+ s)).
Proof. rewrite !readSigns_lineChars. by destruct (lineChars line). Qed.

Lemma readLines_accumulator textFragment acc :
  readLines textFragment acc = (s ← readLines textFragment ""; Some (acc +:+ s)).
Proof.
  unfold readLines. rewrite !readLines_lines.
  by destruct (mapM toPlainTextLine _).
Qed.

(** ** When the serialisers return *)

Lemma mapM_is_Some_Forall {A B} (f : A -> option B) (P : A -> Prop) l :
  (∀ x, is_Some (f x) ↔ P x) → is_Some (mapM f l) ↔ Forall P l.
Proof. intros H. rewrite mapM_is_Some. apply Forall_iff. intros x. apply H. Qed.

Lemma bind_Some_is_Some {A B} (o : option A) (g : A -> B) :
  is_Some (x ← o; Some (g x)) ↔ is_Some o.
Proof. destruct o; cbn; [split; eauto | done]. Qed.

Lemma emitted_is_Some si : is_Some (emitted si) ↔ readable si.
Proof.
  unfold emitted, readable.
  destruct (decide (20 ∈ attributeIds si)); [split; [tauto | eauto]|].
  destruct (decide (1 ∈ attributeIds si)).
  - rewrite bind_Some_is_Some. tauto.
  - destruct (decide (2 ∈ attributeIds si)); (split; [tauto | eauto]).
Qed.

Lemma lineChars_is_Some line :
  is_Some (lineChars line) ↔ Forall readable (lineInterpretations line).
Proof.
  unfold lineChars, emittedBy. rewrite bind_Some_is_Some.
  apply mapM_is_Some_Forall, emitted_is_Some.
Qed.

Lemma toPlainTextLine_is_Some line :
  is_Some (toPlainTextLine line) ↔ Forall readable (lineInterpretations line).
Proof.
  rewrite toPlainTextLine_eq, bind_Some_is_Some. apply lineChars_is_Some.
Qed.

Lemma toStructuredLine_is_Some line :
  is_Some (toStructuredLine line) ↔ Forall readable (lineInterpretations line).
Proof.
  unfold toStructuredLine. rewrite bind_Some_is_Some. apply lineChars_is_Some.
Qed.

Lemma toPlainTextFragment_is_Some tf :
  is_Some (toPlainTextFragment tf)
  ↔ Forall (fun line => Forall readable (lineInterpretations line)) (lines tf).
Proof.
  unfold toPlainTextFragment. rewrite bind_Some_is_Some.
  apply mapM_is_Some_Forall, toPlainTextLine_is_Some.
Qed.

Lemma toStructuredFragment_is_Some tf :
  is_Some (toStructuredFragment tf)
  ↔ Forall (fun line => Forall readable (lineInterpretations line)) (lines tf).
Proof.
  apply mapM_is_Some_Forall, toStructuredLine_is_Some.
Qed.

Lemma toPlainText_is_Some text : is_Some (toPlainText text) ↔ serialisable text.
Proof.
  unfold toPlainText, serialisable. rewrite bind_Some_is_Some.
  apply mapM_is_Some_Forall, toPlainTextFragment_is_Some.
Qed.

Lemma readFragments_eq text : readFragments text = toPlainText text.
Proof.
  unfold readFragments, toPlainText. cbv zeta. rewrite readFragments_fragments.
  by destruct (mapM toPlainTextFragment _).
Qed.

Lemma forM_simplifyTextFragment_is_Some tfs obj :
  is_Some (forM simplifyTextFragment tfs obj)
  ↔ Forall (fun tf => Forall (fun line => Forall readable (lineInterpretations line)) (lines tf)) tfs.
Proof.
  revert obj. induction tfs as [|tf tfs IH]; intros obj.
  - cbn. split; eauto.
  - cbn [forM]. rewrite simplifyTextFragment_entry, Forall_cons.
    rewrite <-toStructuredFragment_is_Some.
    destruct (toStructuredFragment tf) as [los|]; cbn.
    + rewrite IH. split; [eauto | tauto].
    + split; [intros [? [=]] | intros [[? [=]] _]].
Qed.

Lemma simplifiedTextObject_is_Some text :
  is_Some (simplifiedTextObject text) ↔ serialisable text.
Proof. apply forM_simplifyTextFragment_is_Some. Qed.

(** ** What the simpler object holds under each key *)

Lemma forM_simplifyTextFragment_lookup tfs obj obj' name :
  forM simplifyTextFragment tfs obj = Some obj' →
  obj' !! name
  = match lastNamed name tfs with
    | Some tf => toStructuredFragment tf
    | None => obj !! name
    end.
Proof.
  revert obj. induction tfs as [|tf tfs IH]; intros obj.
  - cbn. by intros [= ->].
  - cbn [forM lastNamed]. rewrite simplifyTextFragment_entry.
    destruct (toStructuredFragment tf) as [los|] eqn:Htf; [|done]. cbn.
    intros Hrest. rewrite (IH _ Hrest).
    destruct (lastNamed name tfs); [done|].
    destruct (decide (textFragmentName tf = name)) as [<-|Hne].
    + by rewrite lookup_insert_eq.
    + by rewrite lookup_insert_ne.
Qed.

Lemma simplifiedTextObject_lookup text obj name :
  simplifiedTextObject text = Some obj →
  obj !! name = tf ← lastNamed name (textFragments text); toStructuredFragment tf.
Proof.
  intros H. rewrite (forM_simplifyTextFragment_lookup _ _ _ name H).
  by destruct (lastNamed name _).
Qed.

Lemma lastNamed_Some name tfs tf :
  lastNamed name tfs = Some tf → tf ∈ tfs ∧ textFragmentName tf = name.
Proof.
  induction tfs as [|tf' tfs IH]; [done|]. cbn.
  destruct (lastNamed name tfs) as [tf''|].
  - intros [= ->]. destruct IH as [? ?]; [done|]. split; [by right | done].
  - destruct (decide (textFragmentName tf' = name)); [|done].
    intros [= ->]. split; [by left | done].
Qed.

Lemma lastNamed_app_cons name pre tf post :
  textFragmentName tf = name →
  name ∉ map textFragmentName post →
  lastNamed name (pre ++ tf :: post) = Some tf.
Proof.
  intros Hname Hpost. induction pre as [|tf' pre IH].
  - cbn [app lastNamed].
    assert (lastNamed name post = None) as ->.
    { destruct (lastNamed name post) as [tf'|] eqn:E; [|done].
      apply lastNamed_Some in E as [Hin <-]. destruct Hpost.
      by apply list_elem_of_fmap_2. }
    by rewrite decide_True.
  - cbn [app lastNamed]. by rewrite IH.
Qed.

(** ** Rewriting the interpretations of a text *)

Section RewritingLemmas.
Variable f : list SignInterpretation -> list SignInterpretation.
Hypothesis f_emittedBy : ∀ sis, emittedBy (f sis) = emittedBy sis.

Lemma lineChars_onLine line : lineChars (onLine f line) = lineChars line.
Proof.
  unfold lineChars, lineInterpretations, onLine. cbn [signs].
  induction (signs line) as [|sign ss IH]; [done|].
  cbn [map flat_map]. rewrite !emittedBy_app, IH.
  unfold onSign at 1. cbn [signInterpretations]. by rewrite f_emittedBy.
Qed.

Lemma toPlainTextLine_onLine line :
  toPlainTextLine (onLine f line) = toPlainTextLine line.
Proof. by rewrite !toPlainTextLine_eq, lineChars_onLine. Qed.

Lemma toStructuredLine_onLine line :
  toStructuredLine (onLine f line) = toStructuredLine line.
Proof. unfold toStructuredLine. by rewrite lineChars_onLine. Qed.

Lemma mapM_onLine {B} (h : Line -> option B) ls :
  (∀ line, h (onLine f line) = h line) →
  mapM h (map (onLine f) ls) = mapM h ls.
Proof.
  intros Hh. induction ls as [|line ls IH]; [done|].
  cbn [map]. by rewrite !mapM_cons_eq, Hh, IH.
Qed.

Lemma toPlainTextFragment_onTextFragment tf :
  toPlainTextFragment (onTextFragment f tf) = toPlainTextFragment tf.
Proof.
  unfold toPlainTextFragment, onTextFragment. cbn [lines textFragmentName].
  by rewrite (mapM_onLine _ _ toPlainTextLine_onLine).
Qed.

Lemma toStructuredFragment_onTextFragment tf :
  toStructuredFragment (onTextFragment f tf) = toStructuredFragment tf.
Proof.
  unfold toStructuredFragment, onTextFragment. cbn [lines].
  apply mapM_onLine, toStructuredLine_onLine.
Qed.

Lemma readFragments_onText text :
  readFragments (onText f text) = readFragments text.
Proof.
  rewrite !readFragments_eq. unfold toPlainText, onText.
  cbn [textFragments]. f_equal.
  induction (textFragments text) as [|tf tfs IH]; [done|].
  cbn [map]. by rewrite !mapM_cons_eq, toPlainTextFragment_onTextFragment, IH.
Qed.

Lemma simplifiedTextObject_onText text :
  simplifiedTextObject (onText f text) = simplifiedTextObject text.
Proof.
  unfold simplifiedTextObject, onText. cbn [textFragments].
  rewrite forM_map. apply forM_ext. intros obj tf _.
  rewrite !simplifyTextFragment_entry, toStructuredFragment_onTextFragment.
  done.
Qed.
End RewritingLemmas.

Lemma emitted_reconstructed si : 20 ∈ attributeIds si → emitted si = Some [].
Proof. intros H. unfold emitted. by rewrite decide_True. Qed.

Lemma emittedBy_filter_reconstructed sis :
  emittedBy (filter (fun si => 20 ∉ attributeIds si) sis) = emittedBy sis.
Proof.
  induction sis as [|si sis IH]; [done|].
  rewrite filter_cons. destruct (decide (20 ∉ attributeIds si)) as [H|H].
  - by rewrite !emittedBy_cons, IH.
  - rewrite emittedBy_cons, emitted_reconstructed, IH.
    + cbn. by destruct (emittedBy sis).
    + by destruct (decide (20 ∈ attributeIds si)).
Qed.

Lemma elem_of_attributeIds_without (P : Z -> Prop) `{!∀ v, Decision (P v)} si v :
  v ∈ attributeIds (withoutAttributes P si) ↔ v ∈ attributeIds si ∧ ¬ P v.
Proof.
  unfold attributeIds, withoutAttributes. cbn [attributes].
  rewrite !list_elem_of_fmap. split.
  - intros (a & -> & Ha). apply list_elem_of_filter in Ha as [? ?]. eauto.
  - intros [(a & -> & Ha) ?]. exists a. split; [done|].
    by apply list_elem_of_filter.
Qed.

Lemma emitted_withoutAttributes (P : Z -> Prop) `{!∀ v, Decision (P v)} si :
  ¬ P 1 → ¬ P 2 → ¬ P 20 →
  emitted (withoutAttributes P si) = emitted si.
Proof.
  intros H1 H2 H20. unfold emitted.
  rewrite (decide_ext (20 ∈ attributeIds (withoutAttributes P si))
                      (20 ∈ attributeIds si))
    by (rewrite elem_of_attributeIds_without; tauto).
  rewrite (decide_ext (1 ∈ attributeIds (withoutAttributes P si))
                      (1 ∈ attributeIds si))
    by (rewrite elem_of_attributeIds_without; tauto).
  rewrite (decide_ext (2 ∈ attributeIds (withoutAttributes P si))
                      (2 ∈ attributeIds si))
    by (rewrite elem_of_attributeIds_without; tauto).
  done.
Qed.

Lemma emittedBy_map h sis :
  (∀ si, emitted (h si) = emitted si) → emittedBy (map h sis) = emittedBy sis.
Proof.
  intros Hh. induction sis as [|si sis IH]; [done|].
  cbn [map]. by rewrite !emittedBy_cons, Hh, IH.
Qed.

(** ** The invariants on sample lines *)

Lemma increasing_acyclic line :
  Forall (fun si => Forall (fun b => signInterpretationId si < b)
                           (nextSignInterpretations si))
         (lineInterpretations line) →
  ¬ cyclic line.
Proof.
  intros Hinc [a Ha].
  assert (∀ x y, tc (refersTo line) x y → x < y) as Hlt.
  { assert (∀ x y, refersTo line x y → x < y) as Hstep.
    { intros x y (si & Hsi & <- & Hy).
      rewrite Forall_forall in Hinc. specialize (Hinc _ Hsi).
      rewrite Forall_forall in Hinc. by apply Hinc. }
    induction 1 as [x y Hxy | x y z Hxy _ IH].
    - by apply Hstep.
    - apply Hstep in Hxy. lia. }
  specialize (Hlt _ _ Ha). lia.
Qed.

Lemma ambiguousLine_valid : validLine Sample.ambiguousLine.
Proof.
  split.
  - by repeat constructor.
  - repeat constructor.
  - apply increasing_acyclic. repeat constructor.
  - repeat constructor; cbn; lia.
  - change (lineInterpretations Sample.ambiguousLine)
      with [Sample.waw; Sample.yod; Sample.after].
    repeat apply Forall_cons_2; [| | |apply Forall_nil_2].
    + intros _. by exists "ו".
    + intros _. by exists "י".
    + intros H. apply list_elem_of_singleton in H. discriminate H.
Qed.

Lemma loopLine_cyclic : cyclic Sample.loopLine.
Proof.
  exists 7. apply tc_once. exists Sample.loop.
  split; [repeat constructor | split; [done | repeat constructor]].
Qed.

(** ** C1 *)

(** C1, as stated, fails: on a valid line whose first sign is read either
    as waw or as yod, the serialisation pass takes both interpretations of
    that sign, where the default order has the first only. *)
Lemma readSigns_takes_every_interpretation :
  validLine Sample.ambiguousLine
  ∧ defaultOrder Sample.ambiguousLine = [Sample.waw; Sample.after]
  ∧ forM readSignInterpretation (defaultOrder Sample.ambiguousLine) ""
    = Some "ו "
  ∧ readSigns Sample.ambiguousLine "" = Some "וי "
  ∧ readSigns Sample.ambiguousLine ""
    ≠ forM readSignInterpretation (defaultOrder Sample.ambiguousLine) "".
Proof.
  split; [apply ambiguousLine_valid|].
  split; [reflexivity|]. split; [by vm_compute|]. split; [by vm_compute|].
  by vm_compute.
Qed.

(** C1, amended: the serialisation pass of [readSigns] goes through every
    interpretation of every sign, the signs in the line's order and the
    interpretations of a sign in the order listed; when every sign has
    exactly one interpretation these are the default order, one
    interpretation per sign. *)
Theorem readSigns_order line :
  (∀ acc, readSigns line acc
          = forM readSignInterpretation (lineInterpretations line) acc)
  ∧ (Forall (fun sign => length (signInterpretations sign) = 1%nat) (signs line) →
     lineInterpretations line = defaultOrder line
     ∧ length (defaultOrder line) = length (signs line)).
Proof.
  split; [apply readSigns_all|].
  unfold lineInterpretations, defaultOrder.
  induction 1 as [|sign ss Hone _ [IH1 IH2]]; [done|].
  cbn [flat_map]. rewrite IH1, length_app, IH2.
  destruct (signInterpretations sign) as [|si [|? ?]]; done.
Qed.

Lemma readSigns_order_witness :
  lineInterpretations Sample.kafLine = defaultOrder Sample.kafLine
  ∧ length (defaultOrder Sample.kafLine) = length (signs Sample.kafLine).
Proof.
  apply (readSigns_order Sample.kafLine). repeat constructor.
Defined.

(** ** C2 *)

Lemma carries_attributeIds v si : carries v si ↔ v ∈ attributeIds si.
Proof.
  unfold carries, attributeIds. rewrite Exists_exists, list_elem_of_fmap.
  split; intros (a & H1 & H2); exists a; eauto.
Qed.

Lemma emitted_carries si :
  emitted si
  = if decide (carries 20 si) then Some []
    else if decide (carries 1 si) then c ← character si; Some [c]
    else if decide (carries 2 si) then Some [" "]
    else Some [].
Proof.
  unfold emitted.
  rewrite (decide_ext (carries 20 si) (20 ∈ attributeIds si))
    by apply carries_attributeIds.
  rewrite (decide_ext (carries 1 si) (1 ∈ attributeIds si))
    by apply carries_attributeIds.
  by rewrite (decide_ext (carries 2 si) (2 ∈ attributeIds si))
    by apply carries_attributeIds.
Qed.

(** C2: [readFragments] returns exactly when no character that is read is
    missing, and its result is [toPlainText]: per text fragment a header
    bearing the fragment's name, then per line a header bearing the line's
    name, the line's contributions and a closing newline.  The
    contribution of an interpretation is read off its attribute records:
    nothing when one of them has value 20; otherwise its character when
    one has value 1; otherwise one space when one has value 2; otherwise
    nothing. *)
Theorem readFragments_toPlainText text :
  readFragments text = toPlainText text
  ∧ (is_Some (readFragments text) ↔ serialisable text)
  ∧ (∀ si acc, readSignInterpretation acc si
               = cs ← emitted si; Some (acc +:+ join cs))
  ∧ (∀ si, emitted si
           = if decide (carries 20 si) then Some []
             else if decide (carries 1 si) then c ← character si; Some [c]
             else if decide (carries 2 si) then Some [" "]
             else Some [])
  ∧ (∀ si acc c, carries 1 si → ¬ carries 20 si → character si = Some c →
                 readSignInterpretation acc si = Some (acc +:+ c))
  ∧ (∀ si acc, carries 2 si → ¬ carries 1 si → ¬ carries 20 si →
               readSignInterpretation acc si = Some (acc +:+ " "))
  ∧ (∀ si acc, carries 20 si ∨ (¬ carries 1 si ∧ ¬ carries 2 si) →
               readSignInterpretation acc si = Some acc).
Proof.
  split; [apply readFragments_eq|].
  split; [rewrite readFragments_eq; apply toPlainText_is_Some|].
  split; [intros si acc; apply readSignInterpretation_emitted|].
  split; [apply emitted_carries|].
  split; [|split].
  - intros si acc c H1 H20 Hc.
    rewrite readSignInterpretation_emitted, emitted_carries.
    rewrite decide_False, decide_True by done. rewrite Hc. cbn.
    by rewrite append_nil_r.
  - intros si acc H2 H1 H20.
    rewrite readSignInterpretation_emitted, emitted_carries.
    rewrite !decide_False, decide_True by done. cbn. by rewrite append_nil_r.
  - intros si acc Hsilent.
    rewrite readSignInterpretation_emitted, emitted_carries.
    destruct (decide (carries 20 si)); [cbn; by rewrite append_nil_r|].
    destruct Hsilent as [?|[H1 H2]]; [done|].
    rewrite !decide_False by done. cbn. by rewrite append_nil_r.
Qed.

Lemma readFragments_toPlainText_witness :
  readFragments Sample.kafText
  = Some (nl +:+ "Text fragment frg. 1:" +:+ nl +:+ "line 1:" +:+ nl
          +:+ "כ " +:+ nl)
  ∧ is_Some (readFragments Sample.kafText)
  ∧ readSignInterpretation "" Sample.kaf = Some "כ"
  ∧ readSignInterpretation "כ" Sample.space = Some "כ "
  ∧ readSignInterpretation "כ " Sample.lamed = Some "כ ".
Proof.
  destruct (readFragments_toPlainText Sample.kafText)
    as (Heq & Hsome & _ & _ & Hletter & Hspace & Hsilent).
  split; [rewrite Heq; by vm_compute|].
  split; [apply Hsome; repeat constructor; intros; by eexists|].
  split; [apply (Hletter Sample.kaf "" "כ"); first [reflexivity | compute_done]|].
  split; [apply (Hspace Sample.space "כ"); compute_done|].
  apply (Hsilent Sample.lamed "כ "). left. compute_done.
Defined.

(** ** C3 *)

(** C3: an interpretation whose attributes include value 20 contributes
    nothing to either serialisation, whatever its other attributes: both
    loop bodies leave their accumulator as it is, and deleting every such
    interpretation from a text changes neither result. *)
Theorem reconstructed_excluded text si :
  20 ∈ attributeIds si →
  (∀ acc, readSignInterpretation acc si = Some acc)
  ∧ (∀ name lo, simplifySignInterpretation name lo si = Some lo)
  ∧ readFragments (dropReconstructed text) = readFragments text
  ∧ simplifiedTextObject (dropReconstructed text) = simplifiedTextObject text.
Proof.
  intros H20. split; [|split; [|split]].
  - intros acc. unfold readSignInterpretation. cbv zeta.
    by rewrite decide_False by tauto.
  - intros name lo. unfold simplifySignInterpretation. cbv zeta.
    by rewrite decide_False by tauto.
  - apply readFragments_onText, emittedBy_filter_reconstructed.
  - apply simplifiedTextObject_onText, emittedBy_filter_reconstructed.
Qed.

Lemma reconstructed_excluded_witness :
  (∀ acc, readSignInterpretation acc Sample.lamed = Some acc)
  ∧ (∀ name lo, simplifySignInterpretation name lo Sample.lamed = Some lo)
  ∧ readFragments (dropReconstructed Sample.kafText) = readFragments Sample.kafText
  ∧ simplifiedTextObject (dropReconstructed Sample.kafText)
    = simplifiedTextObject Sample.kafText.
Proof.
  apply (reconstructed_excluded Sample.kafText Sample.lamed).
  compute_done.
Defined.

(** ** C4 *)

(** C4: a line whose interpretations are, in order, a kaf marked as a
    letter, an interpretation marked as a space, and a letter marked as
    reconstructed, has the body kaf followed by one space. *)
Theorem kaf_space_lamed line A B C :
  lineInterpretations line = [A; B; C] →
  character A = Some "כ" → 1 ∈ attributeIds A → 20 ∉ attributeIds A →
  2 ∈ attributeIds B → 1 ∉ attributeIds B → 20 ∉ attributeIds B →
  20 ∈ attributeIds C →
  ∀ acc, readSigns line acc = Some (acc +:+ "כ ").
Proof.
  intros Hline HA HA1 HA20 HB2 HB1 HB20 HC acc.
  rewrite readSigns_all, Hline. cbn [forM]. unfold readSignInterpretation.
  cbv zeta. rewrite (decide_True (P := 20 ∉ attributeIds A)) by done.
  rewrite (decide_True (P := 1 ∈ attributeIds A)) by done. rewrite HA. cbn.
  rewrite (decide_True (P := 20 ∉ attributeIds B)) by done.
  rewrite (decide_False (P := 1 ∈ attributeIds B)) by done.
  rewrite (decide_True (P := 2 ∈ attributeIds B)) by done.
  rewrite (decide_False (P := 20 ∉ attributeIds C)) by tauto.
  by rewrite <-append_assoc.
Qed.

Lemma kaf_space_lamed_witness :
  readSigns Sample.kafLine "" = Some "כ "
  ∧ readSigns Sample.kafLine' "" = Some "כ ".
Proof.
  split.
  - apply (kaf_space_lamed Sample.kafLine Sample.kaf Sample.space Sample.lamed);
      first [reflexivity | compute_done].
  - apply (kaf_space_lamed Sample.kafLine' Sample.kaf Sample.space Sample.lamed);
      first [reflexivity | compute_done].
Defined.

(** ** C5 *)

Lemma toStructuredLine_Some line lo :
  toStructuredLine line = Some lo →
  ∃ cs, lo = {[ lineName line := cs ]}
        ∧ ∀ acc, readSigns line acc = Some (acc +:+ join cs).
Proof.
  unfold toStructuredLine. intros H.
  destruct (lineChars line) as [cs|] eqn:Hcs; [|done].
  injection H as <-. exists cs. split; [done|].
  intros acc. by rewrite readSigns_lineChars, Hcs.
Qed.

(** C5, as stated, fails: the first text fragment of the sample is followed
    by another of the same name; its line "Col. I" stands in the string
    with the content kaf, space, and no object anywhere in the simpler
    object has the key "Col. I". *)
Lemma shadowed_line_has_no_entry :
  EditionSample.earlier ∈ textFragments EditionSample.shadowed
  ∧ Sample.columnI ∈ lines EditionSample.earlier
  ∧ readFragments EditionSample.shadowed
    = Some (nl +:+ "Text fragment frg. 1:" +:+ nl
            +:+ "line Col. I:" +:+ nl +:+ "כ " +:+ nl
            +:+ nl +:+ "Text fragment frg. 1:" +:+ nl
            +:+ "line 1:" +:+ nl +:+ "כ " +:+ nl)
  ∧ ∃ obj, simplifiedTextObject EditionSample.shadowed = Some obj
           ∧ ∀ name los (lo : gmap string (list string)),
               obj !! name = Some los → lo ∈ los → lo !! "Col. I" = None.
Proof.
  split; [left|]. split; [left|]. split; [by vm_compute|].
  exists {[ "frg. 1" := [ {[ "1" := ["כ"; " "] ]} ] ]}.
  split; [by vm_compute|].
  intros name los lo [_ <-]%lookup_singleton_Some Hlo.
  apply list_elem_of_singleton in Hlo as ->. by vm_compute.
Qed.

(** C5, amended: the two serialisers return on the same texts, and then,
    for each line of each text fragment that no text fragment of the same
    name follows, the simpler object lists under the fragment's name, at
    the line's place, one object whose only key is the line's name and
    whose value, concatenated, is what [readSigns] appends for that line
    and what stands between the line's header and its closing newline in
    the string.  Moreover every text fragment's name is a key, and every
    entry of the object is that of a text fragment of that name. *)
Theorem serialisers_agree text :
  (is_Some (readFragments text) ↔ is_Some (simplifiedTextObject text))
  ∧ ∀ obj, simplifiedTextObject text = Some obj →
      (∀ pre tf post,
         textFragments text = pre ++ tf :: post →
         textFragmentName tf ∉ map textFragmentName post →
         ∃ los, obj !! textFragmentName tf = Some los
                ∧ Forall2 (fun line lo =>
                             ∃ cs, lo = {[ lineName line := cs ]}
                                   ∧ (∀ acc, readSigns line acc
                                             = Some (acc +:+ join cs))
                                   ∧ toPlainTextLine line
                                     = Some (("line " +:+ lineName line +:+ ":" +:+ nl)
                                             +:+ join cs +:+ nl))
                          (lines tf) los)
      ∧ (∀ tf, tf ∈ textFragments text → is_Some (obj !! textFragmentName tf))
      ∧ ∀ name los, obj !! name = Some los →
          ∃ tf, tf ∈ textFragments text ∧ textFragmentName tf = name
                ∧ Forall2 (fun line lo =>
                             ∃ cs, lo = {[ lineName line := cs ]}
                                   ∧ ∀ acc, readSigns line acc
                                            = Some (acc +:+ join cs))
                          (lines tf) los.
Proof.
  split.
  { by rewrite readFragments_eq, toPlainText_is_Some, simplifiedTextObject_is_Some. }
  intros obj Hobj.
  assert (serialisable text) as Hser
    by (apply simplifiedTextObject_is_Some; eauto).
  assert (∀ name los, obj !! name = Some los →
            ∃ tf, tf ∈ textFragments text ∧ textFragmentName tf = name
                  ∧ toStructuredFragment tf = Some los) as Hentry.
  { intros name los Hlos.
    rewrite (simplifiedTextObject_lookup _ _ name Hobj) in Hlos.
    destruct (lastNamed name (textFragments text)) as [tf|] eqn:Htf; [|done].
    apply lastNamed_Some in Htf as [? ?]. by exists tf. }
  split; [|split].
  - intros pre tf post Htext Hlast.
    assert (is_Some (toStructuredFragment tf)) as [los Hlos].
    { apply toStructuredFragment_is_Some.
      unfold serialisable in Hser. rewrite Forall_forall in Hser. apply Hser.
      rewrite Htext. apply elem_of_app. right. left. }
    exists los. split.
    + rewrite (simplifiedTextObject_lookup _ _ _ Hobj), Htext.
      by rewrite (lastNamed_app_cons _ _ _ _ eq_refl Hlast).
    + apply mapM_Some_1 in Hlos.
      eapply Forall2_impl; [exact Hlos|]. intros line lo Hlo.
      unfold toStructuredLine in Hlo.
      destruct (lineChars line) as [cs|] eqn:Hcs; [|done].
      injection Hlo as <-. exists cs. split; [done|]. split.
      * intros acc. by rewrite readSigns_lineChars, Hcs.
      * by rewrite toPlainTextLine_eq, Hcs.
  - intros tf Htf.
    rewrite (forM_simplifyTextFragment_lookup _ _ _ (textFragmentName tf) Hobj).
    destruct (lastNamed _ _) as [tf'|] eqn:Hlast.
    + apply lastNamed_Some in Hlast as [Hin _].
      apply toStructuredFragment_is_Some.
      unfold serialisable in Hser. rewrite Forall_forall in Hser. by apply Hser.
    + exfalso. clear Hobj Hentry Hser.
      induction (textFragments text) as [|tf0 tfs IH]; [by inversion Htf|].
      cbn in Hlast. destruct (lastNamed _ tfs).
      * done.
      * apply elem_of_cons in Htf as [->|Htf]; [by rewrite decide_True in Hlast|].
        by apply IH.
  - intros name los Hlos.
    destruct (Hentry _ _ Hlos) as (tf & Hin & Hname & Htf).
    exists tf. split; [done|]. split; [done|].
    apply mapM_Some_1 in Htf.
    eapply Forall2_impl; [exact Htf|]. intros line lo. apply toStructuredLine_Some.
Qed.

Lemma serialisers_agree_witness :
  is_Some (simplifiedTextObject EditionSample.shadowed)
  ∧ ∃ los, ({[ "frg. 1" := [ {[ "1" := ["כ"; " "] ]} ] ]}
              : gmap string (list (gmap string (list string))))
           !! textFragmentName Sample.kafFragment = Some los
           ∧ Forall2 (fun line (lo : gmap string (list string)) =>
                        ∃ cs, lo = {[ lineName line := cs ]}
                              ∧ (∀ acc, readSigns line acc = Some (acc +:+ join cs))
                              ∧ toPlainTextLine line
                                = Some (("line " +:+ lineName line +:+ ":" +:+ nl)
                                        +:+ join cs +:+ nl))
                     (lines Sample.kafFragment) los.
Proof.
  split.
  - apply (serialisers_agree EditionSample.shadowed).
    eexists. vm_compute. reflexivity.
  - apply (proj1 (proj2 (serialisers_agree EditionSample.shadowed)
                    {[ "frg. 1" := [ {[ "1" := ["כ"; " "] ]} ] ]} eq_refl)
             [EditionSample.earlier] Sample.kafFragment []).
    + reflexivity.
    + apply not_elem_of_nil.
Defined.

(** ** C6 *)

(** C6, as stated, fails: for a text fragment with the two lines "Col. I"
    and "Col. II" the simpler object holds a list of two objects, and none
    of them has both keys. *)
Lemma columns_are_two_objects :
  ∃ obj los,
    simplifiedTextObject (Sample.text [Sample.columns]) = Some obj
    ∧ obj !! "frg. 2" = Some los
    ∧ length los = 2%nat
    ∧ ∀ m, m ∈ los → ¬ (is_Some (m !! "Col. I") ∧ is_Some (m !! "Col. II")).
Proof.
  exists {[ "frg. 2" := [ {[ "Col. I" := ["כ"; " "] ]}; {[ "Col. II" := ["ו"] ]} ] ]}.
  exists [ {[ "Col. I" := ["כ"; " "] ]}; {[ "Col. II" := ["ו"] ]} ].
  split; [by vm_compute|]. split; [by vm_compute|]. split; [done|].
  intros m Hm [[? H1] [? H2]].
  apply elem_of_cons in Hm as [->|Hm].
  - by vm_compute in H2.
  - apply list_elem_of_singleton in Hm as ->. by vm_compute in H1.
Qed.

(** C6, amended: when the last text fragment of its name has exactly the
    two lines "Col. I" and "Col. II", the simpler object maps that name to
    a sequence of two single-key objects, the first mapping "Col. I" to the
    first line's filtered characters and the second mapping "Col. II" to
    the second line's. *)
Theorem columns_entry text pre post tf l1 l2 :
  textFragments text = pre ++ tf :: post →
  textFragmentName tf ∉ map textFragmentName post →
  lines tf = [l1; l2] →
  lineName l1 = "Col. I" → lineName l2 = "Col. II" →
  serialisable text →
  ∃ obj c1 c2,
    simplifiedTextObject text = Some obj
    ∧ lineChars l1 = Some c1 ∧ lineChars l2 = Some c2
    ∧ obj !! textFragmentName tf
      = Some [ {[ "Col. I" := c1 ]}; {[ "Col. II" := c2 ]} ].
Proof.
  intros Htext Hlast Hlines Hn1 Hn2 Hser.
  destruct (proj2 (simplifiedTextObject_is_Some text) Hser) as [obj Hobj].
  assert (Forall (fun line => Forall readable (lineInterpretations line))
                 (lines tf)) as Htf.
  { unfold serialisable in Hser. rewrite Forall_forall in Hser. apply Hser.
    rewrite Htext. apply elem_of_app. right. left. }
  rewrite Hlines in Htf.
  apply Forall_cons in Htf as [H1 Htf]. apply Forall_cons in Htf as [H2 _].
  apply lineChars_is_Some in H1 as [c1 Hc1].
  apply lineChars_is_Some in H2 as [c2 Hc2].
  exists obj, c1, c2. split; [done|]. split; [done|]. split; [done|].
  rewrite (simplifiedTextObject_lookup _ _ _ Hobj), Htext.
  rewrite (lastNamed_app_cons _ _ _ _ eq_refl Hlast). cbn.
  unfold toStructuredFragment. rewrite Hlines, !mapM_cons_eq.
  unfold toStructuredLine. rewrite Hc1, Hc2, Hn1, Hn2. done.
Qed.

Lemma columns_entry_witness :
  ∃ obj c1 c2,
    simplifiedTextObject (Sample.text [Sample.columns]) = Some obj
    ∧ lineChars Sample.columnI = Some c1 ∧ lineChars Sample.columnII = Some c2
    ∧ obj !! "frg. 2" = Some [ {[ "Col. I" := c1 ]}; {[ "Col. II" := c2 ]} ].
Proof.
  apply (columns_entry (Sample.text [Sample.columns]) [] [] Sample.columns
           Sample.columnI Sample.columnII); try reflexivity.
  - apply not_elem_of_nil.
  - repeat constructor; intros; by eexists.
Defined.

(** ** C7 *)

Lemma serialisable_characters text :
  Forall (fun tf =>
            Forall (fun line =>
                      Forall (fun si => is_Some (character si))
                             (lineInterpretations line))
                   (lines tf))
         (textFragments text) →
  serialisable text.
Proof.
  unfold serialisable. intros H.
  eapply Forall_impl; [exact H|]. intros tf Htf.
  eapply Forall_impl; [exact Htf|]. intros line Hline.
  eapply Forall_impl; [exact Hline|]. intros si Hc _ _. exact Hc.
Qed.

(** C7: attribute values outside the notebook's table raise nothing and
    change nothing.  Deleting every attribute whose value satisfies a
    predicate that holds of no tabulated value leaves both serialisations
    as they are, and on a text all of whose interpretations have a
    character both serialisers return, whatever attribute values occur. *)
Theorem unknown_attributes_ignored (P : Z -> Prop) `{!∀ v, Decision (P v)} text :
  (∀ v, P v → v ∉ catalog) →
  readFragments (dropAttributes P text) = readFragments text
  ∧ simplifiedTextObject (dropAttributes P text) = simplifiedTextObject text
  ∧ (Forall (fun tf =>
               Forall (fun line =>
                         Forall (fun si => is_Some (character si))
                                (lineInterpretations line))
                      (lines tf))
            (textFragments text) →
     is_Some (readFragments text) ∧ is_Some (simplifiedTextObject text)).
Proof.
  intros HP.
  assert (¬ P 1 ∧ ¬ P 2 ∧ ¬ P 20) as (H1 & H2 & H20).
  { repeat split; intros Hv%HP; apply Hv; compute_done. }
  assert (∀ sis, emittedBy (map (withoutAttributes P) sis) = emittedBy sis) as Hf.
  { intros sis. apply emittedBy_map. intros si.
    by apply emitted_withoutAttributes. }
  split; [by apply readFragments_onText|].
  split; [by apply simplifiedTextObject_onText|].
  intros Hc%serialisable_characters. split.
  - by rewrite readFragments_eq, toPlainText_is_Some.
  - by apply simplifiedTextObject_is_Some.
Qed.

Lemma unknown_attributes_ignored_witness :
  readFragments (dropAttributes (fun v => v = 99) Sample.oddText)
  = readFragments Sample.oddText
  ∧ simplifiedTextObject (dropAttributes (fun v => v = 99) Sample.oddText)
    = simplifiedTextObject Sample.oddText
  ∧ is_Some (readFragments Sample.oddText)
  ∧ is_Some (simplifiedTextObject Sample.oddText).
Proof.
  destruct (unknown_attributes_ignored (fun v => v = 99) Sample.oddText)
    as (Hplain & Htree & Hreturn).
  - intros v ->. compute_done.
  - split; [exact Hplain|]. split; [exact Htree|].
    apply Hreturn. repeat constructor; by eexists.
Defined.

(** ** C8 *)

(** C8, as stated, fails: nothing rejects a line whose references contain
    a cycle.  The sample line has an interpretation that names itself as
    its successor, and both serialisers return on the text that holds it. *)
Lemma cyclic_line_is_serialised :
  cyclic Sample.loopLine
  ∧ readFragments Sample.loopText
    = Some (nl +:+ "Text fragment frg. 3:" +:+ nl +:+ "line 3:" +:+ nl
            +:+ "א " +:+ nl)
  ∧ simplifiedTextObject Sample.loopText
    = Some {[ "frg. 3" := [ {[ "3" := ["א"; " "] ]} ] ]}.
Proof.
  split; [apply loopLine_cyclic|]. split; by vm_compute.
Qed.

(** C8, amended: the next-interpretation references are never read, so no
    cycle among them is detected and none makes a serialiser fail:
    replacing the references of every interpretation by any others leaves
    both serialisations as they are. *)
Theorem references_ignored (g : SignInterpretation -> list Z) text :
  readFragments (rewire g text) = readFragments text
  ∧ simplifiedTextObject (rewire g text) = simplifiedTextObject text.
Proof.
  assert (∀ sis, emittedBy (map (withNext g) sis) = emittedBy sis) as Hf.
  { intros sis. by apply emittedBy_map. }
  split; [by apply readFragments_onText | by apply simplifiedTextObject_onText].
Qed.

(** ** C10 *)



(** ** Finding an edition *)

Lemma editionIdByManuscriptName_versions name (edition : list Version) eid :
  fold_left (fun eid version =>
               if decide (name = versionName version)
               then eid ++ [versionId version] else eid)
            edition eid
  = eid ++ map versionId (filter (fun v => name = versionName v) edition).
Proof.
  revert eid. induction edition as [|v vs IH]; intros eid.
  - cbn. by rewrite app_nil_r.
  - cbn [fold_left]. rewrite IH, filter_cons.
    destruct (decide (name = versionName v)); [|done].
    cbn [map]. by rewrite <-app_assoc.
Qed.

Lemma editionIdByManuscriptName_editions name (editions : list (list Version)) eid :
  fold_left (fun eid edition =>
               fold_left (fun eid version =>
                            if decide (name = versionName version)
                            then eid ++ [versionId version] else eid)
                         edition eid)
            editions eid
  = eid ++ map versionId
             (filter (fun v => name = versionName v) (allVersions editions)).
Proof.
  unfold allVersions. revert eid.
  induction editions as [|e es IH]; intros eid.
  - cbn. by rewrite app_nil_r.
  - cbn [fold_left concat].
    rewrite IH, editionIdByManuscriptName_versions, filter_app, map_app.
    by rewrite <-app_assoc.
Qed.

Lemma elem_of_allVersions (v : Version) editions :
  v ∈ allVersions editions ↔ ∃ edition, v ∈ edition ∧ edition ∈ editions.
Proof.
  unfold allVersions. induction editions as [|e es IH]; cbn [concat].
  - split; [by intros ?%not_elem_of_nil | by intros (? & _ & ?%not_elem_of_nil)].
  - rewrite elem_of_app, IH. split.
    + intros [Hv|(e' & Hv & He')]; [exists e; split; [done | left]|].
      exists e'. split; [done | by right].
    + intros (e' & Hv & [->|He']%elem_of_cons); [by left|].
      right. by exists e'.
Qed.

(** X1: [editionIdByManuscriptName] returns the ids of the versions that
    bear the name, each as often as it is listed and in the order of the
    listing (edition after edition, version after version); so the result
    over two lists of editions put end to end is the two results put end
    to end. *)
Theorem editionIdByManuscriptName_listing editions name :
  editionIdByManuscriptName editions name
  = map versionId (filter (fun v => name = versionName v) (allVersions editions))
  ∧ ∀ editions', editionIdByManuscriptName (editions ++ editions') name
                 = editionIdByManuscriptName editions name
                   ++ editionIdByManuscriptName editions' name.
Proof.
  assert (∀ es, editionIdByManuscriptName es name
                = map versionId (filter (fun v => name = versionName v)
                                        (allVersions es))) as Hall.
  { intros es. unfold editionIdByManuscriptName. cbv zeta.
    by rewrite editionIdByManuscriptName_editions. }
  split; [apply Hall|].
  intros editions'. rewrite !Hall. unfold allVersions.
  by rewrite concat_app, filter_app, map_app.
Qed.

(** X2: an id is returned exactly when some version of some edition has
    that id and the name; the result is empty exactly when no version has
    the name. *)
Theorem editionIdByManuscriptName_elem editions name :
  (∀ id, id ∈ editionIdByManuscriptName editions name
         ↔ ∃ edition version, edition ∈ editions ∧ version ∈ edition
                              ∧ versionName version = name
                              ∧ versionId version = id)
  ∧ (editionIdByManuscriptName editions name = []
     ↔ ∀ edition version, edition ∈ editions → version ∈ edition →
                          versionName version ≠ name).
Proof.
  assert (∀ id, id ∈ editionIdByManuscriptName editions name
                ↔ ∃ edition version, edition ∈ editions ∧ version ∈ edition
                                     ∧ versionName version = name
                                     ∧ versionId version = id) as Helem.
  { intros id.
    rewrite (proj1 (editionIdByManuscriptName_listing editions name)).
    rewrite list_elem_of_fmap. split.
    - intros (v & -> & Hv). apply list_elem_of_filter in Hv as [Hname Hv].
      apply elem_of_allVersions in Hv as (e & Hve & He). by exists e, v.
    - intros (e & v & He & Hv & Hname & <-). exists v. split; [done|].
      apply list_elem_of_filter. split; [done|].
      apply elem_of_allVersions. by exists e. }
  split; [exact Helem|]. split.
  - intros Hnil e v He Hv Hname.
    assert (versionId v ∈ editionIdByManuscriptName editions name) as Hin
      by (apply Helem; by exists e, v).
    rewrite Hnil in Hin. by apply not_elem_of_nil in Hin.
  - intros Hnone.
    destruct (editionIdByManuscriptName editions name) as [|id ids] eqn:E; [done|].
    assert (id ∈ id :: ids) as Hin by left.
    apply Helem in Hin as (e & v & He & Hv & Hname & _).
    by destruct (Hnone e v He Hv).
Qed.

Lemma editionIdByManuscriptName_elem_witness :
  894 ∈ editionIdByManuscriptName EditionSample.editions "4Q51".
Proof.
  apply (editionIdByManuscriptName_elem EditionSample.editions "4Q51").
  exists [EditionSample.version 894 "4Q51"; EditionSample.version 1650 "4Q51"],
         (EditionSample.version 894 "4Q51").
  split; [left|]. split; [left|]. split; reflexivity.
Defined.

(** X3: when some version bears the name, [selectedEdition] is the id of
    the first such version of the listing. *)
Theorem selectedEdition_first editions name before v after :
  allVersions editions = before ++ v :: after →
  Forall (fun u => versionName u ≠ name) before →
  versionName v = name →
  selectedEdition editions name = inl (versionId v).
Proof.
  intros Hall Hbefore Hv. unfold selectedEdition. cbv zeta.
  rewrite (proj1 (editionIdByManuscriptName_listing editions name)), Hall.
  rewrite filter_app, filter_cons.
  rewrite (decide_True (P := name = versionName v)) by done.
  assert (filter (fun u => name = versionName u) before = []) as ->.
  { clear Hall. induction Hbefore as [|u us Hu _ IH]; [done|].
    rewrite filter_cons, (decide_False (P := name = versionName u)) by done.
    exact IH. }
  cbn [app map length]. rewrite decide_True by lia. done.
Qed.

Lemma selectedEdition_first_witness :
  selectedEdition EditionSample.editions "4Q52" = inl 895.
Proof.
  apply (selectedEdition_first EditionSample.editions "4Q52"
           [EditionSample.version 894 "4Q51"; EditionSample.version 1650 "4Q51"]
           (EditionSample.version 895 "4Q52") []).
  - reflexivity.
  - by repeat constructor.
  - reflexivity.
Defined.

(** X4: [selectedEdition] is an id exactly when some version bears the
    name; otherwise it is left as the empty list. *)
Theorem selectedEdition_none editions name :
  (selectedEdition editions name = inr []
   ↔ Forall (fun v => versionName v ≠ name) (allVersions editions))
  ∧ (∀ ids, selectedEdition editions name = inr ids → ids = [])
  ∧ (∀ id, selectedEdition editions name = inl id →
           ∃ v, v ∈ allVersions editions ∧ versionName v = name
                ∧ versionId v = id).
Proof.
  unfold selectedEdition. cbv zeta.
  rewrite (proj1 (editionIdByManuscriptName_listing editions name)).
  induction (allVersions editions) as [|v vs (IH1 & IH2 & IH3)].
  - cbn. split; [split; [constructor | done]|]. split; [by intros ? [= <-]|done].
  - rewrite filter_cons. destruct (decide (name = versionName v)) as [Hv|Hv].
    + cbn [map length]. rewrite decide_True by lia. split; [|split].
      * split; [done|]. intros [Hne _]%Forall_cons. by destruct Hne.
      * done.
      * intros id [= <-]. exists v. split; [left | done].
    + split; [|split].
      * rewrite IH1, Forall_cons. split; [by split | tauto].
      * exact IH2.
      * intros id Hid. destruct (IH3 id Hid) as (u & Hu & Hname & Hidu).
        exists u. split; [by right | done].
Qed.

Lemma selectedEdition_none_witness :
  selectedEdition EditionSample.editions "1QS" = inr [].
Proof.
  apply (selectedEdition_none EditionSample.editions "1QS").
  by repeat constructor.
Defined.

(** ** Texts put end to end, and texts without text fragments *)

Lemma mapM_app_eq {A B} (f : A -> option B) l1 l2 :
  mapM f (l1 ++ l2) = k1 ← mapM f l1; k2 ← mapM f l2; Some (k1 ++ k2).
Proof.
  induction l1 as [|x l1 IH].
  - cbn [app]. change (mapM f []) with (Some (@nil B)). cbn.
    by destruct (mapM f l2).
  - cbn [app]. rewrite !mapM_cons_eq, IH. destruct (f x); [|done]. cbn.
    destruct (mapM f l1); [|done]. cbn. by destruct (mapM f l2).
Qed.

Lemma lastNamed_is_Some name tfs :
  is_Some (lastNamed name tfs) ↔ name ∈ map textFragmentName tfs.
Proof.
  induction tfs as [|tf tfs IH]; cbn [lastNamed map].
  - split; [by intros [? [=]] | by intros ?%not_elem_of_nil].
  - rewrite elem_of_cons, <-IH. destruct (lastNamed name tfs).
    + split; eauto.
    + destruct (decide (textFragmentName tf = name)) as [->|Hne].
      * split; eauto.
      * split; [by intros [? [=]] | intros [?|[? [=]]]; congruence].
Qed.

Lemma lastNamed_app name tfs1 tfs2 :
  lastNamed name (tfs1 ++ tfs2)
  = match lastNamed name tfs2 with
    | Some tf => Some tf
    | None => lastNamed name tfs1
    end.
Proof.
  induction tfs1 as [|tf tfs1 IH]; cbn [app lastNamed].
  - by destruct (lastNamed name tfs2).
  - rewrite IH. by destruct (lastNamed name tfs2).
Qed.

Lemma append_nl_ne_empty s : nl +:+ s ≠ "".
Proof. done. Qed.

(** X5: the serialisation of a text without text fragments is the empty
    string, respectively the empty object, and of no other text: the
    string of a text with a text fragment starts with a newline and the
    object has the fragment's name as a key. *)
Theorem empty_serialisations text :
  (readFragments text = Some "" ↔ textFragments text = [])
  ∧ (simplifiedTextObject text = Some ∅ ↔ textFragments text = []).
Proof.
  split.
  - rewrite readFragments_eq. unfold toPlainText.
    destruct (textFragments text) as [|tf tfs]; [done|].
    split; [|done]. rewrite mapM_cons_eq. intros H.
    destruct (toPlainTextFragment tf) as [y|] eqn:Hy; [|done]. cbn in H.
    destruct (mapM toPlainTextFragment tfs) as [k|]; [|done]. cbn in H.
    injection H as H. unfold toPlainTextFragment in Hy.
    destruct (mapM toPlainTextLine (lines tf)) as [ls|]; [|done].
    injection Hy as <-.
    change (join (?y :: k)) with (y +:+ join k) in H.
    rewrite <-!append_assoc in H. by apply append_nl_ne_empty in H.
  - unfold simplifiedTextObject.
    destruct (textFragments text) as [|tf tfs] eqn:Htfs; [done|].
    split; [|done]. intros Hobj.
    pose proof (forM_simplifyTextFragment_lookup _ _ _ (textFragmentName tf) Hobj)
      as Hlook.
    rewrite lookup_empty in Hlook.
    destruct (lastNamed (textFragmentName tf) (tf :: tfs)) as [tf'|] eqn:Hlast.
    + assert (is_Some (toStructuredFragment tf')) as [? Htf'].
      { apply toStructuredFragment_is_Some.
        apply lastNamed_Some in Hlast as [Hin _].
        assert (is_Some (forM simplifyTextFragment (tf :: tfs) ∅)) as Hs by eauto.
        apply forM_simplifyTextFragment_is_Some in Hs.
        rewrite Forall_forall in Hs. by apply Hs. }
      congruence.
    + assert (is_Some (lastNamed (textFragmentName tf) (tf :: tfs))) as [? ?].
      { apply lastNamed_is_Some. left. }
      congruence.
Qed.

Lemma empty_serialisations_witness :
  readFragments (Sample.text []) = Some ""
  ∧ simplifiedTextObject (Sample.text []) = Some ∅.
Proof.
  split.
  - by apply (empty_serialisations (Sample.text [])).
  - by apply (empty_serialisations (Sample.text [])).
Defined.

(** X6: the string of two lists of text fragments put end to end is the
    string of the first followed by the string of the second, and it
    exists exactly when both do. *)
Theorem readFragments_app text text1 text2 :
  textFragments text = textFragments text1 ++ textFragments text2 →
  readFragments text
  = s1 ← readFragments text1; s2 ← readFragments text2; Some (s1 +:+ s2).
Proof.
  intros Htext. rewrite !readFragments_eq. unfold toPlainText.
  rewrite Htext, mapM_app_eq.
  destruct (mapM toPlainTextFragment (textFragments text1)) as [k1|]; [|done].
  cbn. destruct (mapM toPlainTextFragment (textFragments text2)) as [k2|]; [|done].
  cbn. by rewrite join_app.
Qed.

Lemma readFragments_app_witness :
  readFragments EditionSample.twice
  = s1 ← readFragments (Sample.text [EditionSample.earlier]);
    s2 ← readFragments EditionSample.once; Some (s1 +:+ s2).
Proof.
  by apply (readFragments_app EditionSample.twice
              (Sample.text [EditionSample.earlier]) EditionSample.once).
Defined.

Lemma forM_simplifyTextFragment_union tfs
    (obj : gmap string (list (gmap string (list string)))) :
  forM simplifyTextFragment tfs obj
  = o ← forM simplifyTextFragment tfs ∅; Some (o ∪ obj).
Proof.
  destruct (forM simplifyTextFragment tfs obj) as [obj'|] eqn:Hobj.
  - assert (is_Some (forM simplifyTextFragment tfs ∅)) as [o Ho].
    { apply forM_simplifyTextFragment_is_Some.
      eapply forM_simplifyTextFragment_is_Some. eauto. }
    rewrite Ho. cbn. f_equal. apply map_eq. intros name.
    rewrite (forM_simplifyTextFragment_lookup _ _ _ name Hobj), lookup_union.
    rewrite (forM_simplifyTextFragment_lookup _ _ _ name Ho), lookup_empty.
    destruct (lastNamed name tfs) as [tf|] eqn:Hlast.
    + assert (is_Some (toStructuredFragment tf)) as [los ->].
      { apply toStructuredFragment_is_Some.
        apply lastNamed_Some in Hlast as [Hin _].
        assert (is_Some (forM simplifyTextFragment tfs ∅)) as Hs by eauto.
        apply forM_simplifyTextFragment_is_Some in Hs.
        rewrite Forall_forall in Hs. by apply Hs. }
      by destruct (obj !! name).
    + by destruct (obj !! name).
  - destruct (forM simplifyTextFragment tfs ∅) as [o|] eqn:Ho; [|done].
    assert (is_Some (forM simplifyTextFragment tfs obj)) as [? ?]; [|congruence].
    apply forM_simplifyTextFragment_is_Some.
    eapply forM_simplifyTextFragment_is_Some. eauto.
Qed.

(** X7: the object of two lists of text fragments put end to end is the
    object of the second completed by the entries of the first whose names
    the second does not use: under a name both use, the second wins. *)
Theorem simplifiedTextObject_app text text1 text2 :
  textFragments text = textFragments text1 ++ textFragments text2 →
  simplifiedTextObject text
  = o1 ← simplifiedTextObject text1; o2 ← simplifiedTextObject text2;
    Some (o2 ∪ o1).
Proof.
  intros Htext. unfold simplifiedTextObject. rewrite Htext, forM_app.
  destruct (forM simplifyTextFragment (textFragments text1) ∅) as [o1|]; [|done].
  cbn. apply forM_simplifyTextFragment_union.
Qed.

Lemma simplifiedTextObject_app_witness :
  simplifiedTextObject EditionSample.twice
  = o1 ← simplifiedTextObject (Sample.text [EditionSample.earlier]);
    o2 ← simplifiedTextObject EditionSample.once; Some (o2 ∪ o1).
Proof.
  by apply (simplifiedTextObject_app EditionSample.twice
              (Sample.text [EditionSample.earlier]) EditionSample.once).
Defined.

(** ** What is kept, and what is never read *)

(** X8: [readSigns] and [readLines] never change the string they are
    given: their result is that string followed by what they return on the
    empty string, and they return on the one exactly when they return on
    the other. *)
Theorem accumulator_kept textFragment line acc :
  readSigns line acc = (s ← readSigns line ""; Some (acc +:+ s))
  ∧ readLines textFragment acc
    = (s ← readLines textFragment ""; Some (acc +:+ s)).
Proof. split; [apply readSigns_accumulator | apply readLines_accumulator]. Qed.

Lemma emitted_withCharacter g si : emitted (withCharacter g si) = emitted si.
Proof.
  unfold emitted, withCharacter, attributeIds. cbn [attributes character].
  destruct (decide (20 ∈ map attributeValueId (attributes si))) as [H20|H20];
    [done|].
  destruct (decide (1 ∈ map attributeValueId (attributes si))) as [H1|H1];
    [|done].
  by rewrite decide_True.
Qed.

(** X9: ['character'] is read only from the interpretations that are
    letters and are not reconstructed: giving any other interpretation
    another character, or none, changes neither serialisation. *)
Theorem character_read_from_letters (g : SignInterpretation -> option string) text :
  readFragments (recharacter g text) = readFragments text
  ∧ simplifiedTextObject (recharacter g text) = simplifiedTextObject text.
Proof.
  assert (∀ sis, emittedBy (map (withCharacter g) sis) = emittedBy sis) as Hf.
  { intros sis. apply emittedBy_map, emitted_withCharacter. }
  split; [by apply readFragments_onText | by apply simplifiedTextObject_onText].
Qed.

(** X10: a letter that is not reconstructed and has no character makes
    [readFragments] raise and the second cell raise, wherever it stands in
    the text.  ([None] says that the cell raised; what the variable holds
    at that moment is not described.) *)
Theorem missing_character_raises text tf line si :
  tf ∈ textFragments text → line ∈ lines tf → si ∈ lineInterpretations line →
  1 ∈ attributeIds si → 20 ∉ attributeIds si → character si = None →
  readFragments text = None ∧ simplifiedTextObject text = None.
Proof.
  intros Htf Hline Hsi H1 H20 Hc.
  assert (¬ serialisable text) as Hno.
  { unfold serialisable. rewrite Forall_forall. intros Hs.
    specialize (Hs _ Htf). rewrite Forall_forall in Hs.
    specialize (Hs _ Hline). rewrite Forall_forall in Hs.
    destruct (Hs _ Hsi H20 H1) as [c Hsome]. congruence. }
  split.
  - destruct (readFragments text) as [s|] eqn:Hs; [|done].
    destruct Hno. apply toPlainText_is_Some. rewrite <-readFragments_eq. eauto.
  - destruct (simplifiedTextObject text) as [o|] eqn:Ho; [|done].
    destruct Hno. apply simplifiedTextObject_is_Some. eauto.
Qed.

Lemma missing_character_raises_witness :
  readFragments EditionSample.holeText = None
  ∧ simplifiedTextObject EditionSample.holeText = None.
Proof.
  apply (missing_character_raises EditionSample.holeText
           EditionSample.holeFragment EditionSample.holeLine EditionSample.hole);
    first [reflexivity | compute_done | repeat constructor].
Defined.

(** ** The keys and entries of the simpler object *)

Lemma serialisable_lastNamed tfs obj obj' name tf :
  forM simplifyTextFragment tfs obj = Some obj' →
  lastNamed name tfs = Some tf →
  ∃ los, toStructuredFragment tf = Some los ∧ obj' !! name = Some los.
Proof.
  intros Hobj Hlast.
  assert (is_Some (toStructuredFragment tf)) as [los Hlos].
  { apply toStructuredFragment_is_Some.
    apply lastNamed_Some in Hlast as [Hin _].
    assert (is_Some (forM simplifyTextFragment tfs obj)) as Hs by eauto.
    apply forM_simplifyTextFragment_is_Some in Hs.
    rewrite Forall_forall in Hs. by apply Hs. }
  exists los. split; [done|].
  by rewrite (forM_simplifyTextFragment_lookup _ _ _ name Hobj), Hlast.
Qed.

Lemma size_list_to_set_le (names : list string) :
  (size (list_to_set names : gset string) ≤ length names)%nat.
Proof.
  induction names as [|n ns IH]; [by rewrite list_to_set_nil, size_empty|].
  rewrite list_to_set_cons. cbn [length].
  pose proof (size_union_alt {[n]} (list_to_set ns : gset string)) as Hu.
  rewrite size_singleton in Hu.
  assert (list_to_set ns ∖ {[n]} ⊆ (list_to_set ns : gset string)) as Hsub
    by (intros x [Hx _]%elem_of_difference; exact Hx).
  apply subseteq_size in Hsub. lia.
Qed.

(** X11: the keys of the simpler object are the names of the text
    fragments, each once however many text fragments bear it. *)
Theorem simplifiedTextObject_dom text obj :
  simplifiedTextObject text = Some obj →
  dom obj = list_to_set (map textFragmentName (textFragments text))
  ∧ (size obj ≤ length (textFragments text))%nat.
Proof.
  intros Hobj.
  assert (dom obj = list_to_set (map textFragmentName (textFragments text)))
    as Hdom.
  { apply set_eq. intros name.
    rewrite elem_of_dom, elem_of_list_to_set, <-lastNamed_is_Some.
    rewrite (forM_simplifyTextFragment_lookup _ _ _ name Hobj), lookup_empty.
    destruct (lastNamed name (textFragments text)) as [tf|] eqn:Hlast.
    - destruct (serialisable_lastNamed _ _ _ _ _ Hobj Hlast) as (los & -> & _).
      split; eauto.
    - split; by intros [? [=]]. }
  split; [done|].
  rewrite <-size_dom, Hdom.
  rewrite <-(length_map textFragmentName (textFragments text)).
  apply size_list_to_set_le.
Qed.

Lemma simplifiedTextObject_dom_witness :
  let obj : gmap string (list (gmap string (list string))) :=
    <[ "frg. 1" := [ {[ "1" := ["כ"; " "] ]} ] ]>
      {[ "frg. 2" := [ {[ "Col. I" := ["כ"; " "] ]}; {[ "Col. II" := ["ו"] ]} ] ]} in
  dom obj = list_to_set (map textFragmentName (textFragments EditionSample.twice))
  ∧ (size obj ≤ length (textFragments EditionSample.twice))%nat.
Proof.
  intros obj. apply (simplifiedTextObject_dom EditionSample.twice obj).
  by vm_compute.
Defined.

(** X12: under the name of a text fragment the simpler object holds the
    line objects of the last text fragment of that name, one per line and
    in the order of the lines, whatever the lines write. *)
Theorem simplifiedTextObject_entry text pre tf post :
  textFragments text = pre ++ tf :: post →
  textFragmentName tf ∉ map textFragmentName post →
  serialisable text →
  ∃ obj los,
    simplifiedTextObject text = Some obj
    ∧ obj !! textFragmentName tf = Some los
    ∧ Forall2 (fun line lo => lineObject line = Some lo) (lines tf) los
    ∧ length los = length (lines tf).
Proof.
  intros Htext Hlast Hser.
  destruct (proj2 (simplifiedTextObject_is_Some text) Hser) as [obj Hobj].
  assert (lastNamed (textFragmentName tf) (textFragments text) = Some tf) as Hl.
  { rewrite Htext. by apply lastNamed_app_cons. }
  destruct (serialisable_lastNamed _ _ _ _ _ Hobj Hl) as (los & Hlos & Hlook).
  exists obj, los. split; [done|]. split; [done|].
  apply mapM_Some_1 in Hlos.
  split.
  - eapply Forall2_impl; [exact Hlos|]. intros line lo Hlo.
    by rewrite lineObject_lineChars.
  - symmetry. by eapply Forall2_length.
Qed.

Lemma simplifiedTextObject_entry_witness :
  ∃ obj los,
    simplifiedTextObject EditionSample.twice = Some obj
    ∧ obj !! "frg. 1" = Some los
    ∧ Forall2 (fun line lo => lineObject line = Some lo)
              (lines Sample.kafFragment) los
    ∧ length los = 1%nat.
Proof.
  apply (simplifiedTextObject_entry EditionSample.twice
           [EditionSample.earlier; Sample.columns] Sample.kafFragment []).
  - reflexivity.
  - apply not_elem_of_nil.
  - repeat constructor; intros H20 H1; first [by eexists | by destruct H20; compute_done].
Defined.

(** ** What a line writes *)

Lemma emitted_length si cs :
  emitted si = Some cs →
  length cs = (if decide (writes si) then 1 else 0)%nat.
Proof.
  unfold emitted, writes.
  destruct (decide (20 ∈ attributeIds si)) as [H20|H20].
  - intros [= <-]. by rewrite decide_False by tauto.
  - destruct (decide (1 ∈ attributeIds si)) as [H1|H1].
    + destruct (character si); [|done]. intros [= <-].
      by rewrite decide_True by tauto.
    + destruct (decide (2 ∈ attributeIds si)) as [H2|H2]; intros [= <-].
      * by rewrite decide_True by tauto.
      * by rewrite decide_False by tauto.
Qed.

Lemma emittedBy_length sis cs :
  emittedBy sis = Some cs → length cs = length (filter writes sis).
Proof.
  revert cs. induction sis as [|si sis IH]; intros cs.
  - by intros [= <-].
  - rewrite emittedBy_cons, filter_cons.
    destruct (emitted si) as [c|] eqn:Hc; [|done]. cbn.
    destruct (emittedBy sis) as [cs'|]; [|done]. cbn. intros [= <-].
    rewrite length_app, (IH _ eq_refl), (emitted_length _ _ Hc).
    by destruct (decide (writes si)).
Qed.

Lemma emitted_from si cs :
  emitted si = Some cs →
  Forall (fun c => c = " " ∨ (character si = Some c ∧ 1 ∈ attributeIds si
                              ∧ 20 ∉ attributeIds si)) cs.
Proof.
  unfold emitted.
  destruct (decide (20 ∈ attributeIds si)) as [H20|H20];
    [intros [= <-]; constructor|].
  destruct (decide (1 ∈ attributeIds si)) as [H1|H1].
  - destruct (character si) as [c|]; [|done]. intros [= <-].
    apply Forall_cons_2; [by right | constructor].
  - destruct (decide (2 ∈ attributeIds si)); intros [= <-].
    + apply Forall_cons_2; [by left | constructor].
    + constructor.
Qed.

Lemma emittedBy_from sis cs :
  emittedBy sis = Some cs →
  Forall (fun c => c = " " ∨ ∃ si, si ∈ sis ∧ character si = Some c
                                   ∧ 1 ∈ attributeIds si
                                   ∧ 20 ∉ attributeIds si) cs.
Proof.
  revert cs. induction sis as [|si sis IH]; intros cs.
  - intros [= <-]. constructor.
  - rewrite emittedBy_cons.
    destruct (emitted si) as [c|] eqn:Hc; [|done]. cbn.
    destruct (emittedBy sis) as [cs'|]; [|done]. cbn. intros [= <-].
    apply Forall_app. split.
    + eapply Forall_impl; [exact (emitted_from _ _ Hc)|].
      intros x [->|(? & ? & ?)]; [by left|]. right. exists si.
      split; [left | done].
    + eapply Forall_impl; [exact (IH _ eq_refl)|].
      intros x [->|(sj & ? & ?)]; [by left|]. right. exists sj.
      split; [by right | done].
Qed.

(** X13: the object of a line has the line's name as its only key, and the
    list under it has one element for each interpretation of the line that
    is not reconstructed and is a letter or a space; the line is listed
    even when that list is empty. *)
Theorem lineObject_shape line :
  Forall readable (lineInterpretations line) →
  ∃ cs, lineObject line = Some {[ lineName line := cs ]}
        ∧ length cs = length (filter writes (lineInterpretations line)).
Proof.
  intros [cs Hcs]%lineChars_is_Some. exists cs.
  rewrite lineObject_lineChars. unfold toStructuredLine. rewrite Hcs.
  split; [done|]. by apply emittedBy_length.
Qed.

Lemma lineObject_shape_witness :
  ∃ cs, lineObject Sample.kafLine = Some {[ "1" := cs ]}
        ∧ length cs = length (filter writes (lineInterpretations Sample.kafLine)).
Proof.
  apply (lineObject_shape Sample.kafLine).
  repeat constructor; intros H20 H1; first [by eexists | by destruct H20; compute_done].
Defined.

(** X14: neither serialiser writes anything of its own but spaces: every
    element of a line's list is one space or the character of an
    unreconstructed letter of that line. *)
Theorem lineObject_elements line lo cs :
  lineObject line = Some lo → lo !! lineName line = Some cs →
  Forall (fun c => c = " " ∨ ∃ si, si ∈ lineInterpretations line
                                   ∧ character si = Some c
                                   ∧ 1 ∈ attributeIds si
                                   ∧ 20 ∉ attributeIds si) cs.
Proof.
  rewrite lineObject_lineChars. unfold toStructuredLine.
  destruct (lineChars line) as [cs'|] eqn:Hcs; [|done].
  intros [= <-]. rewrite lookup_singleton_eq. intros [= <-].
  by apply emittedBy_from.
Qed.

Lemma lineObject_elements_witness :
  Forall (fun c => c = " " ∨ ∃ si, si ∈ lineInterpretations Sample.kafLine
                                   ∧ character si = Some c
                                   ∧ 1 ∈ attributeIds si
                                   ∧ 20 ∉ attributeIds si) ["כ"; " "].
Proof.
  apply (lineObject_elements Sample.kafLine {[ "1" := ["כ"; " "] ]}).
  - by vm_compute.
  - by vm_compute.
Defined.

Lemma emitted_silent si : ¬ writes si → emitted si = Some [].
Proof.
  unfold writes, emitted. intros Hw.
  destruct (decide (20 ∈ attributeIds si)); [done|].
  rewrite !decide_False by tauto. done.
Qed.

(** X15: a line none of whose interpretations is an unreconstructed letter
    or space (a line without signs, or one wholly reconstructed) leaves the
    string as it is and is listed with an empty list. *)
Theorem silent_line line :
  Forall (fun si => ¬ writes si) (lineInterpretations line) →
  (∀ acc, readSigns line acc = Some acc)
  ∧ lineObject line = Some {[ lineName line := [] ]}.
Proof.
  intros Hsilent.
  assert (lineChars line = Some []) as Hcs.
  { unfold lineChars. induction Hsilent as [|si sis Hsi _ IH]; [done|].
    by rewrite emittedBy_cons, (emitted_silent _ Hsi), IH. }
  split.
  - intros acc. rewrite readSigns_lineChars, Hcs. cbn. by rewrite append_nil_r.
  - rewrite lineObject_lineChars. unfold toStructuredLine. by rewrite Hcs.
Qed.

Lemma silent_line_witness :
  ((∀ acc, readSigns EditionSample.emptyLine acc = Some acc)
   ∧ lineObject EditionSample.emptyLine = Some {[ "4" := [] ]})
  ∧ ((∀ acc, readSigns EditionSample.lostLine acc = Some acc)
     ∧ lineObject EditionSample.lostLine = Some {[ "5" := [] ]}).
Proof.
  split.
  - apply (silent_line EditionSample.emptyLine). constructor.
  - apply (silent_line EditionSample.lostLine).
    repeat constructor. intros [H20 _]. apply H20. compute_done.
Defined.

(** X16: the boundaries between signs leave no trace: two lines of the
    same name whose interpretations, taken sign after sign, are the same
    list are serialised alike, whether the interpretations are variants of
    one sign or stand in successive signs. *)
Theorem sign_boundaries_invisible line1 line2 :
  lineInterpretations line1 = lineInterpretations line2 →
  lineName line1 = lineName line2 →
  (∀ acc, readSigns line1 acc = readSigns line2 acc)
  ∧ lineObject line1 = lineObject line2.
Proof.
  intros Hsis Hname. split.
  - intros acc. by rewrite !readSigns_all, Hsis.
  - rewrite !lineObject_lineChars. unfold toStructuredLine, lineChars.
    by rewrite Hsis, Hname.
Qed.

Lemma sign_boundaries_invisible_witness :
  (∀ acc, readSigns Sample.kafLine acc = readSigns Sample.kafLine' acc)
  ∧ lineObject Sample.kafLine = lineObject Sample.kafLine'.
Proof.
  by apply (sign_boundaries_invisible Sample.kafLine Sample.kafLine').
Defined.

(** ** Text fragments of the same name *)

Lemma forM_simplifyTextFragment_shadow tfs name x
    (obj : gmap string (list (gmap string (list string)))) :
  name ∈ map textFragmentName tfs →
  forM simplifyTextFragment tfs (<[name := x]> obj)
  = forM simplifyTextFragment tfs obj.
Proof.
  intros Hname.
  rewrite (forM_simplifyTextFragment_union tfs (<[name := x]> obj)).
  rewrite (forM_simplifyTextFragment_union tfs obj).
  destruct (forM simplifyTextFragment tfs ∅) as [o|] eqn:Ho; [|done].
  cbn. f_equal. apply map_eq. intros k. rewrite !lookup_union.
  destruct (decide (name = k)) as [<-|Hne].
  - apply lastNamed_is_Some in Hname as [tf Htf].
    destruct (serialisable_lastNamed _ _ _ _ _ Ho Htf) as (los & _ & ->).
    rewrite lookup_insert_eq. by destruct (obj !! name).
  - by rewrite lookup_insert_ne.
Qed.

(** X17: a text fragment followed by another of the same name leaves
    nothing in the simpler object: provided its own letters have their
    characters, the object is the one built without it. *)
Theorem shadowed_fragment_lost text text' pre tf post :
  textFragments text = pre ++ tf :: post →
  textFragments text' = pre ++ post →
  textFragmentName tf ∈ map textFragmentName post →
  Forall (fun line => Forall readable (lineInterpretations line)) (lines tf) →
  simplifiedTextObject text = simplifiedTextObject text'.
Proof.
  intros Htext Htext' Hname Htf. unfold simplifiedTextObject.
  rewrite Htext, Htext', !forM_app.
  destruct (forM simplifyTextFragment pre ∅) as [o|]; [|done].
  cbn [mbind option_bind forM]. rewrite simplifyTextFragment_entry.
  apply toStructuredFragment_is_Some in Htf as [los ->]. cbn.
  by apply forM_simplifyTextFragment_shadow.
Qed.

Lemma shadowed_fragment_lost_witness :
  simplifiedTextObject EditionSample.twice = simplifiedTextObject EditionSample.once.
Proof.
  apply (shadowed_fragment_lost EditionSample.twice EditionSample.once
           [] EditionSample.earlier [Sample.columns; Sample.kafFragment]).
  - reflexivity.
  - reflexivity.
  - compute_done.
  - repeat constructor; intros H20 H1; first [by eexists | by destruct H20; compute_done].
Defined.
